(** * CircleArt, Perlin-noise edition: the animation engine of [sketch.js]

    The sketch is a p5.js program.  Its numbers are JavaScript numbers
    (IEEE-754 binary64).  The development keeps two readings of the
    arithmetic side by side:

    - the engine itself is embedded over the exact rationals [Q]; every
      property that quantifies over seeds, amplitudes, times or pointer
      positions is stated there;
    - module [Binary64] repeats the few arithmetic lines whose {e value}
      the specification fixes (the pointer mapping and the clock step) on
      Rocq's primitive floats, which evaluate exactly as binary64 does.

    p5.js itself is not part of the repository.  [noise] is a parameter of
    the embedding; [map], [constrain], [max], [random], [randomSeed],
    [push], [pop], [translate], [rotate] and [scale] follow the p5.js
    reference.  Paint calls ([fill], [stroke], [circle], [ellipse], [rect],
    [curveVertex], ...) touch neither the transform stack nor the random
    stream and are left out of the drawing routines. *)

From Stdlib Require Import QArith Qminmax Qabs Lqa Lia ZArith List Bool String.
From Stdlib Require Import PrimFloat.
Import ListNotations.

Local Open Scope Q_scope.

(** ** p5.js primitives used by the sketch *)

(** A primitive coordinate change, kept symbolically: rotations are in
    degrees and would need [cos]/[sin] to be multiplied out. *)
Inductive Xform : Type :=
| Translate (dx dy : Q)
| Rotate (deg : Q)
| Scale (k : Q).

(** The renderer's transform state: the current transform, as the
    sequence of changes applied so far, and the stack that [push] saves
    to. *)
Record Gfx : Type := mkGfx {
  ctm   : list Xform;
  saved : list (list Xform)
}.

(** The state behind [random]: the seeded generator's state (absent until
    [randomSeed] is first called) and the host's [Math.random] stream,
    which [random] falls back to while unseeded. *)
Record Rng : Type := mkRng {
  lcg_state   : option Z;
  ambient     : nat -> Q;
  ambient_pos : nat
}.

Module P5.

(** [map(n, start1, stop1, start2, stop2)]: linear re-mapping, no clamping. *)
Definition map (n start1 stop1 start2 stop2 : Q) : Q :=
  (n - start1) / (stop1 - start1) * (stop2 - start2) + start2.

(** [constrain(n, low, high)] is [Math.max(Math.min(n, high), low)]. *)
Definition constrain (n low high : Q) : Q := Qmax (Qmin n high) low.

Definition max (a b : Q) : Q := Qmax a b.

(** The linear congruential generator behind a seeded [random]. *)
Definition lcg_m : Z := 4294967296.
Definition lcg_a : Z := 1664525.
Definition lcg_c : Z := 1013904223.

(** [randomSeed(seed)]: the state becomes [seed >>> 0]. *)
Definition randomSeed (seed : Z) (r : Rng) : Rng :=
  mkRng (Some (seed mod lcg_m)%Z) (ambient r) (ambient_pos r).

(** [random()]: the next number in [[0, 1)]. *)
Definition rand (r : Rng) : Q * Rng :=
  match lcg_state r with
  | Some s =>
      let s' := ((lcg_a * s + lcg_c) mod lcg_m)%Z in
      (s' # 4294967296, mkRng (Some s') (ambient r) (ambient_pos r))
  | None =>
      (ambient r (ambient_pos r), mkRng None (ambient r) (S (ambient_pos r)))
  end.

(** [random(max)]. *)
Definition random1 (hi : Q) (r : Rng) : Q * Rng :=
  let (u, r') := rand r in (u * hi, r').

(** [random(min, max)]; the bounds are swapped when [min > max]. *)
Definition random2 (lo hi : Q) (r : Rng) : Q * Rng :=
  let (u, r') := rand r in
  if Qle_bool lo hi then (u * (hi - lo) + lo, r')
  else (u * (lo - hi) + hi, r').

Definition push (g : Gfx) : Gfx :=
  mkGfx (ctm g) (ctm g :: saved g).

(** [pop()] without a matching [push()] only logs a warning. *)
Definition pop (g : Gfx) : Gfx :=
  match saved g with
  | [] => g
  | c :: rest => mkGfx c rest
  end.

Definition translate (dx dy : Q) (g : Gfx) : Gfx :=
  mkGfx (ctm g ++ [Translate dx dy]) (saved g).

Definition rotate (deg : Q) (g : Gfx) : Gfx :=
  mkGfx (ctm g ++ [Rotate deg]) (saved g).

Definition scale (k : Q) (g : Gfx) : Gfx :=
  mkGfx (ctm g ++ [Scale k]) (saved g).

End P5.

(** What a drawing routine can change: the renderer and the random
    stream. *)
Record World : Type := mkWorld {
  gfx : Gfx;
  rng : Rng
}.

Definition on_gfx (f : Gfx -> Gfx) (w : World) : World :=
  mkWorld (f (gfx w)) (rng w).

Definition on_rng (f : Rng -> Rng) (w : World) : World :=
  mkWorld (gfx w) (f (rng w)).

(** [for (let i = 0; i < n; i++) body(i)]. *)
Definition for_ (n : nat) (body : nat -> World -> World) (w : World) : World :=
  fold_left (fun acc i => body i acc) (seq 0 n) w.

Definition ofNat (i : nat) : Q := inject_Z (Z.of_nat i).

(** ** Configuration: the [NOISE] object *)

Record NoiseConfig : Type := mkNoise {
  animate : bool;
  speed   : Q;   (* base time step *)
  wiggle  : Q;   (* max pixel offset for whole circle *)
  sMin    : Q;   (* min breathing scale *)
  sMax    : Q;   (* max breathing scale *)
  rotMax  : Q    (* max rotation (degrees) *)
}.

Definition NOISE : NoiseConfig :=
  {| animate := true; speed := 0.02; wiggle := 50;
     sMin := 0.9; sMax := 1.15; rotMax := 300 |}.

(** ** [class CircleArt] *)

(** A drawing routine reads the global [noiseStrength] (first argument)
    and receives the time [tt]. *)
Definition DrawFn : Type := Q -> Q -> World -> World.

Module CircleArt.

Record t : Type := mk {
  x : Q;            (* X position on canvas *)
  y : Q;            (* Y position on canvas *)
  scale : Q;        (* Scale multiplier *)
  drawFn : DrawFn;  (* Drawing function for this circle *)
  nx : Q;           (* per-circle noise seeds *)
  ny : Q;
  ns : Q;
  nr : Q
}.

(** [constructor(x, y, scale, drawFn)]: four [random(1000)] draws. *)
Definition new (x0 y0 scale0 : Q) (fn : DrawFn) (r : Rng) : t * Rng :=
  let (nx0, r1) := P5.random1 1000 r in
  let (ny0, r2) := P5.random1 1000 r1 in
  let (ns0, r3) := P5.random1 1000 r2 in
  let (nr0, r4) := P5.random1 1000 r3 in
  (mk x0 y0 scale0 fn nx0 ny0 ns0 nr0, r4).

Definition seeds (c : t) : Q * Q * Q * Q := (nx c, ny c, ns c, nr c).

End CircleArt.

(** The locals [dx], [dy], [sFactor], [sc], [ang] of [CircleArt.display]. *)
Record Offsets : Type := mkOffsets {
  dx : Q;
  dy : Q;
  sFactor : Q;
  sc : Q;
  ang : Q
}.

(** ** The sketch's globals *)

Record State : Type := mkState {
  t : Q;                (* global time parameter *)
  noiseStrength : Q;    (* horizontal mouse controls this *)
  timeScale : Q;        (* vertical mouse controls this *)
  circles : list CircleArt.t;
  width : Q;            (* canvas size, set by createCanvas *)
  height : Q;
  windowWidth : Q;      (* browser window size, set by the host *)
  windowHeight : Q;
  cnvPos : Q * Q;       (* where cnv.position put the canvas *)
  world : World
}.

(** What the host hands to a fresh page: the window size and the state of
    the random sources. *)
Record Host : Type := mkHost {
  hostWidth : Q;
  hostHeight : Q;
  hostRng : Rng
}.

(** A JavaScript call either returns or throws. *)
Inductive Outcome (A : Type) : Type :=
| Returned (a : A)
| Thrown (message : string).
Arguments Returned {A} a.
Arguments Thrown {A} message.

Inductive InputEvent : Type :=
| MouseMoved (mouseX mouseY : Q)
| WindowResized (w h : Q).

Inductive Event : Type :=
| Frame
| Input (i : InputEvent).

(** ** The engine, parametric in the Perlin noise function

    [noise x y] is p5's [noise(x, y)]; the one-argument call [noise(x)] is
    [noise x 0]. *)

Section Engine.

Variable noise : Q -> Q -> Q.

(** [noiseWiggle(seed, amp, tGlobal)]; the global it reads comes first. *)
Definition noiseWiggle (noiseStrength seed amp tGlobal : Q) : Q :=
  P5.map (noise seed tGlobal) 0 1 (- amp * noiseStrength) (amp * noiseStrength).

(** *** The eight drawing routines: their transform and random calls *)

Definition drawCircle1 : DrawFn := fun _ _ w => w.

Definition drawCircle2 : DrawFn := fun noiseStrength tt =>
  for_ 24 (fun i w =>
    let baseAngle := ofNat i * (360 / 24) in
    let angleOffset := noiseWiggle noiseStrength (300 + ofNat i) 25 tt in
    let angle := baseAngle + angleOffset in
    let w := on_gfx P5.push w in
    let w := on_gfx (P5.rotate angle) w in
    on_gfx P5.pop w).

Definition drawCircle3 : DrawFn := fun noiseStrength tt =>
  for_ 8 (fun i w =>
    let baseAngle := ofNat i * 45 in
    let angleOffset := noiseWiggle noiseStrength (500 + ofNat i) 20 tt in
    let w := on_gfx P5.push w in
    let w := on_gfx (P5.rotate (baseAngle + angleOffset)) w in
    on_gfx P5.pop w).

Definition drawCircle4 : DrawFn := fun _ _ w => w.

Definition drawCircle5 : DrawFn := fun noiseStrength tt w =>
  let w := on_gfx P5.push w in
  let w := for_ 6 (fun i w =>
    let baseAngle := ofNat i * 60 in
    let angleOffset := noiseWiggle noiseStrength (800 + ofNat i) 35 tt in
    on_gfx (P5.rotate (baseAngle + angleOffset)) w) w in
  on_gfx P5.pop w.

Definition drawCircle6 : DrawFn := fun _ _ w =>
  let s := 260 in
  let w := on_rng (P5.randomSeed 1234) w in
  let w := for_ 6 (fun _ w =>
    let w := on_rng (fun r => snd (P5.random2 (-36) 36 r)) w in
    let w := on_rng (fun r => snd (P5.random2 (-0.05 * s) (0.05 * s) r)) w in
    on_rng (fun r => snd (P5.random2 0.05 0.1 r)) w) w in
  for_ 6 (fun _ w =>
    let w := on_rng (fun r => snd (P5.random2 (-36) 36 r)) w in
    on_rng (fun r => snd (P5.random2 0.1 0.12 r)) w) w.

Definition drawCircle7 : DrawFn := fun noiseStrength tt =>
  for_ 24 (fun i w =>
    let baseAngle := (360 / 24) * ofNat i in
    let angleOffset := noiseWiggle noiseStrength (1100 + ofNat i) 14 tt in
    let w := on_gfx P5.push w in
    let w := on_gfx (P5.rotate (baseAngle + angleOffset)) w in
    on_gfx P5.pop w).

Definition drawCircle8 : DrawFn := fun _ _ =>
  for_ 16 (fun i w =>
    let baseAngle := (360 / 16) * ofNat i in
    let w := on_gfx P5.push w in
    let w := on_gfx (P5.rotate baseAngle) w in
    on_gfx P5.pop w).

(** *** [CircleArt.display] *)

Definition offsets (cfg : NoiseConfig) (noiseStrength : Q)
    (c : CircleArt.t) (tt : Q) : Offsets :=
  (* base Perlin samples *)
  let px := noise (CircleArt.nx c + tt) 0 in
  let py := noise (CircleArt.ny c + tt) 0 in
  let ps := noise (CircleArt.ns c + tt) 0 in
  let pr := noise (CircleArt.nr c + tt) 0 in
  (* position offsets, scaled by noiseStrength *)
  let dx := P5.map px 0 1 (- wiggle cfg * noiseStrength)
                          (wiggle cfg * noiseStrength) in
  let dy := P5.map py 0 1 (- wiggle cfg * noiseStrength)
                          (wiggle cfg * noiseStrength) in
  (* breathing scale *)
  let sFactor := P5.map ps 0 1 (sMin cfg) (sMax cfg * noiseStrength) in
  let sc := CircleArt.scale c * sFactor in
  (* rotation *)
  let ang := P5.map pr 0 1 (- rotMax cfg * noiseStrength)
                           (rotMax cfg * noiseStrength) in
  mkOffsets dx dy sFactor sc ang.

(** The coordinate frame [display] sets up inside its [push]. *)
Definition enter (cfg : NoiseConfig) (noiseStrength : Q)
    (c : CircleArt.t) (tt : Q) (g : Gfx) : Gfx :=
  let o := offsets cfg noiseStrength c tt in
  let g := P5.push g in
  let g := P5.translate (CircleArt.x c + dx o) (CircleArt.y c + dy o) g in
  let g := P5.rotate (ang o) g in
  P5.scale (sc o) g.

Definition display (cfg : NoiseConfig) (noiseStrength : Q)
    (c : CircleArt.t) (tt : Q) (w : World) : World :=
  let w := on_gfx (enter cfg noiseStrength c tt) w in
  let w := CircleArt.drawFn c noiseStrength tt w in
  on_gfx P5.pop w.

(** *** [drawBackgroundGrid] *)

Record DotConfig : Type := mkDots {
  gx : Q; gy : Q; count : nat; rMin : Q; rMax : Q
}.

Definition dotConfig : list DotConfig :=
  [ mkDots 0 0 25 15 45;   (* Red quadrant *)
    mkDots 1 0 25 15 45;   (* Blue quadrant *)
    mkDots 0 1 15 10 36;   (* Green quadrant *)
    mkDots 1 1 15 10 36 ]. (* Orange quadrant *)

(** One dot: its radius, then its centre; returns [(cx, cy, r)]. *)
Definition scatterDot (cell baseX baseY : Q) (q : DotConfig) (rg : Rng)
    : (Q * Q * Q) * Rng :=
  let (r, rg) := P5.random2 (rMin q) (rMax q) rg in
  let margin := 10 in
  let (ux, rg) := P5.random2 (margin + r) (cell - margin - r) rg in
  let cx := baseX + ux in
  let (uy, rg) := P5.random2 (margin + r) (cell - margin - r) rg in
  let cy := baseY + uy in
  ((cx, cy, r), rg).

Fixpoint scatterDots (n : nat) (cell baseX baseY : Q) (q : DotConfig)
    (rg : Rng) : list (Q * Q * Q) * Rng :=
  match n with
  | O => ([], rg)
  | S k =>
      let (d, rg) := scatterDot cell baseX baseY q rg in
      let (ds, rg) := scatterDots k cell baseX baseY q rg in
      (d :: ds, rg)
  end.

Fixpoint scatterQuadrants (qs : list DotConfig) (cell : Q) (rg : Rng)
    : list (Q * Q * Q) * Rng :=
  match qs with
  | [] => ([], rg)
  | q :: rest =>
      let baseX := gx q * cell in
      let baseY := gy q * cell in
      let (ds, rg) := scatterDots (count q) cell baseX baseY q rg in
      let (ds', rg) := scatterQuadrants rest cell rg in
      (ds ++ ds', rg)
  end.

(** The dots of the background, and the random stream after them. *)
Definition backgroundDots (width : Q) (rg : Rng) : list (Q * Q * Q) * Rng :=
  let cell := width / 2 in
  (* Use fixed random seed for consistent dot placement *)
  let rg := P5.randomSeed 9103 rg in
  scatterQuadrants dotConfig cell rg.

Definition drawBackgroundGrid (width : Q) (w : World) : World :=
  on_rng (fun rg => snd (backgroundDots width rg)) w.

(** *** [drawAllCircles] *)

(** The arguments of the twelve [new CircleArt(...)], in array order. *)
Definition layout : list (Q * Q * Q * DrawFn) :=
  [ (10, 10, 1.0, drawCircle6);
    (220, 180, 0.9, drawCircle4);
    (400, -30, 0.4, drawCircle7);
    (530, 180, 0.6, drawCircle8);
    (785, 80, 0.8, drawCircle4);

    (-45, 270, 0.9, drawCircle3);
    (154, 460, 1.4, drawCircle1);
    (434, 460, 1.4, drawCircle2);
    (760, 410, 1.2, drawCircle3);

    (20, 700, 1.0, drawCircle5);
    (295, 730, 1.1, drawCircle6);
    (610, 730, 0.7, drawCircle7) ].

(** Evaluating the array literal: the constructors run left to right. *)
Fixpoint instantiate (l : list (Q * Q * Q * DrawFn)) (rg : Rng)
    : list CircleArt.t * Rng :=
  match l with
  | [] => ([], rg)
  | (x0, y0, s0, fn) :: rest =>
      let (c, rg) := CircleArt.new x0 y0 s0 fn rg in
      let (cs, rg) := instantiate rest rg in
      (c :: cs, rg)
  end.

Definition displayAll (cfg : NoiseConfig) (noiseStrength tt : Q)
    (cs : list CircleArt.t) (w : World) : World :=
  fold_left (fun w c => display cfg noiseStrength c tt w) cs w.

Definition drawAllCircles (cfg : NoiseConfig) (tt : Q) (st : State) : State :=
  let (cs, rg) :=
    if (List.length (circles st) =? 0)%nat
    then instantiate layout (rng (world st))
    else (circles st, rng (world st)) in
  let w := mkWorld (gfx (world st)) rg in
  let w := displayAll cfg (noiseStrength st) tt cs w in
  mkState (t st) (noiseStrength st) (timeScale st) cs
          (width st) (height st) (windowWidth st) (windowHeight st)
          (cnvPos st) w.

(** *** The callbacks *)

Definition centerCanvas (st : State) : State :=
  let x := (windowWidth st - width st) / 2 in
  let y := (windowHeight st - height st) / 2 in
  let x := P5.max 0 x in
  let y := P5.max 0 y in
  mkState (t st) (noiseStrength st) (timeScale st) (circles st)
          (width st) (height st) (windowWidth st) (windowHeight st)
          (x, y) (world st).

(** The globals as the script's top level leaves them, on a fresh page. *)
Definition loaded (h : Host) : State :=
  mkState 0 1.0 1.0 [] 100 100 (hostWidth h) (hostHeight h) (0, 0)
          (mkWorld (mkGfx [] []) (hostRng h)).

Definition createCanvas (w h : Q) (st : State) : State :=
  mkState (t st) (noiseStrength st) (timeScale st) (circles st)
          w h (windowWidth st) (windowHeight st) (cnvPos st) (world st).

(** [setup]: no statement of it throws. *)
Definition setup (st : State) : Outcome State :=
  let st := createCanvas 800 800 st in
  let st := centerCanvas st in
  Returned st.

Definition windowResized (st : State) : State := centerCanvas st.

Definition mouseMoved (mouseX mouseY : Q) (st : State) : State :=
  (* noiseStrength: 0.5 (gentle)  ~  2.0 (very wiggly) *)
  let noiseStrength' := P5.map mouseX 0 (width st) 0.5 2.0 in
  let noiseStrength' := P5.constrain noiseStrength' 0.5 2.0 in
  (* timeScale: 0.3 (slow motion) ~ 2.0 (fast forward) *)
  let timeScale' := P5.map mouseY 0 (height st) 0.3 2.0 in
  let timeScale' := P5.constrain timeScale' 0.3 2.0 in
  mkState (t st) noiseStrength' timeScale' (circles st)
          (width st) (height st) (windowWidth st) (windowHeight st)
          (cnvPos st) (world st).

Definition draw (cfg : NoiseConfig) (st : State) : State :=
  let w := drawBackgroundGrid (width st) (world st) in
  let t' := if animate cfg then t st + speed cfg * timeScale st else t st in
  let st := mkState t' (noiseStrength st) (timeScale st) (circles st)
                    (width st) (height st) (windowWidth st) (windowHeight st)
                    (cnvPos st) w in
  drawAllCircles cfg (t st) st.

(** *** The host's event loop *)

Definition handle (i : InputEvent) (st : State) : State :=
  match i with
  | MouseMoved mx my => mouseMoved mx my st
  | WindowResized w h =>
      windowResized
        (mkState (t st) (noiseStrength st) (timeScale st) (circles st)
                 (width st) (height st) w h (cnvPos st) (world st))
  end.

Definition step (cfg : NoiseConfig) (st : State) (e : Event) : State :=
  match e with
  | Frame => draw cfg st
  | Input i => handle i st
  end.

Definition run (cfg : NoiseConfig) (es : list Event) (st : State) : State :=
  fold_left (step cfg) es st.

Definition frames (cfg : NoiseConfig) (n : nat) (st : State) : State :=
  run cfg (repeat Frame n) st.

(** A page from load to its first events: the script's top level, then
    [setup], then whatever the host delivers. *)
Definition session (cfg : NoiseConfig) (h : Host) (es : list Event)
    : Outcome State :=
  match setup (loaded h) with
  | Returned st => Returned (run cfg es st)
  | Thrown msg => Thrown msg
  end.

End Engine.

(** ** The same arithmetic in binary64

    The lines of [mouseMoved] and of the clock step of [draw], on the
    numbers JavaScript computes with. *)

Module Binary64.

#[local] Set Warnings "-inexact-float".
Local Open Scope float_scope.

(** [Math.min] and [Math.max]: NaN if either argument is, and [-0 < +0]. *)
Definition Math_min (a b : float) : float :=
  if is_nan a || is_nan b then nan
  else if a <? b then a
  else if b <? a then b
  else if get_sign a then a else b.

Definition Math_max (a b : float) : float :=
  if is_nan a || is_nan b then nan
  else if a <? b then b
  else if b <? a then a
  else if get_sign a then b else a.

Definition map (n start1 stop1 start2 stop2 : float) : float :=
  (n - start1) / (stop1 - start1) * (stop2 - start2) + start2.

Definition constrain (n low high : float) : float :=
  Math_max (Math_min n high) low.

(** [mouseMoved]: the new [(noiseStrength, timeScale)]. *)
Definition mouseMoved (mouseX mouseY width height : float) : float * float :=
  let noiseStrength := map mouseX 0 width 0.5 2.0 in
  let noiseStrength := constrain noiseStrength 0.5 2.0 in
  let timeScale := map mouseY 0 height 0.3 2.0 in
  let timeScale := constrain timeScale 0.3 2.0 in
  (noiseStrength, timeScale).

(** [NOISE.speed]. *)
Definition speed : float := 0.02.

(** [t += NOISE.speed * timeScale], once per frame. *)
Definition tick (timeScale t : float) : float := t + speed * timeScale.

Fixpoint ticks (n : nat) (timeScale t : float) : float :=
  match n with
  | O => t
  | S k => ticks k timeScale (tick timeScale t)
  end.

End Binary64.

(** ** The specification's vocabulary *)

Module Spec.

(** Section 4.3, [lerp(x, [a, b] -> [c, d])]. *)
Definition lerp (x a b c d : Q) : Q := c + (x - a) * (d - c) / (b - a).

(** Section 4.3, [clamp(v, lo, hi)]. *)
Definition clamp (v lo hi : Q) : Q :=
  if Qle_bool v lo then lo else if Qle_bool hi v then hi else v.

(** Section 7(a): what makes a configuration invalid. *)
Definition validConfig (cfg : NoiseConfig) : bool :=
  Qle_bool (sMin cfg) (sMax cfg) && Qle_bool 0 (wiggle cfg)
  && Qle_bool 0 (rotMax cfg) && Qle_bool 0 (speed cfg).

End Spec.

(** ** The seeded stream, as numbers *)

Definition lcg_next (s : Z) : Z := ((P5.lcg_a * s + P5.lcg_c) mod P5.lcg_m)%Z.

Definition lcg_advance (k : nat) (s : Z) : Z := Nat.iter k lcg_next s.

(** The random stream after [k] more calls of [random]. *)
Definition draws (k : nat) (r : Rng) : Rng :=
  Nat.iter k (fun r => snd (P5.rand r)) r.

(** The seeds of [n] figures constructed in a row from generator state [s]. *)
Fixpoint lcgSeeds (n : nat) (s : Z) : list (Q * Q * Q * Q) :=
  match n with
  | O => []
  | S k =>
      let s1 := lcg_next s in
      let s2 := lcg_next s1 in
      let s3 := lcg_next s2 in
      let s4 := lcg_next s3 in
      ((s1 # 4294967296) * 1000, (s2 # 4294967296) * 1000,
       (s3 # 4294967296) * 1000, (s4 # 4294967296) * 1000)
      :: lcgSeeds k s4
  end.

(** The twelve figures' seeds: the stream of [randomSeed(9103)] after the
    240 draws of the background dots. *)
Definition registrySeeds : list (Q * Q * Q * Q) :=
  Eval vm_compute in lcgSeeds 12 (lcg_advance 240 9103).

(** ** Sample inputs *)

Module Samples.

(** Two noise functions with values in [[0, 1]]: a constant one, and one
    that varies continuously with its second coordinate only. *)
Definition flatNoise : Q -> Q -> Q := fun _ _ => 0.5.

Definition timeNoise : Q -> Q -> Q := fun _ y => y * y / (1 + y * y).

Definition host : Host :=
  mkHost 1280 720 (mkRng None (fun n => 1 # Pos.of_succ_nat n) 0).

Definition blank : World := mkWorld (mkGfx [] []) (hostRng host).

(** A drawing routine that leaves a [push()] unmatched. *)
Definition leaky : DrawFn := fun _ _ w => on_gfx P5.push w.

Definition figure (fn : DrawFn) : CircleArt.t :=
  CircleArt.mk 154 460 1.4 fn 0 250 500 750.

(** [scaleMin > scaleMax] and a negative amplitude. *)
Definition badConfig : NoiseConfig :=
  {| animate := true; speed := 0.02; wiggle := -50;
     sMin := 1.15; sMax := 0.9; rotMax := 300 |}.

(** The page once the 800x800 canvas exists. *)
Definition canvas : State := createCanvas 800 800 (loaded host).

(** A state whose [timeScale] is 0 and whose clock reads 5. *)
Definition still : State :=
  mkState 5 1 0 [] 800 800 1280 720 (0, 0) blank.

(** A figure drawn by the fifth routine. *)
Definition petals : CircleArt.t := figure (drawCircle5 flatNoise).

End Samples.

(** ** What the drawing routines paint

    The animated shapes of each routine, with the numbers the routine
    computes for them.  Routines 2, 3, 7 and 8 draw in a frame they rotate
    first: each shape comes with that rotation.  Routines 1 and 4 place
    their dots with [cos] and [sin]: each dot comes as the angle and the
    radius handed to them. *)

Inductive Shape : Type :=
| Rect (x y w h : Q)
| Ellipse (x y w h : Q).

Section Shapes.

Variable noise : Q -> Q -> Q.

(** [drawCircle1]: the ring of purple dots, as [(angle, radius, diameter)]. *)
Definition ringDots1 (noiseStrength tt : Q) : list (Q * Q * Q) :=
  let R := 100 in
  let dotRadius := R * 0.10 in
  let padding := R * 0.05 in
  let baseCircleRadius := R - dotRadius - padding in
  List.map (fun i =>
    let baseAngle := ofNat i * (360 / 20) in
    let angleOffset := noiseWiggle noise noiseStrength (100 + ofNat i) 20 tt in
    let radiusOffset :=
      noiseWiggle noise noiseStrength (200 + ofNat i) (R * 0.10) tt in
    let angle := baseAngle + angleOffset in
    let radius := baseCircleRadius + radiusOffset in
    (angle, radius, dotRadius * 2)) (seq 0 20).

(** [drawCircle2]: the white spokes, [rect]s in [rectMode(CENTER)]. *)
Definition spokes2 (noiseStrength tt : Q) : list (Q * Shape) :=
  let R := 100 in
  let spokeWidth := R * 0.06 in
  let innerRadius := R * 0.40 in
  let outerRadius := R * 0.82 in
  List.map (fun i =>
    let baseAngle := ofNat i * (360 / 24) in
    let angleOffset := noiseWiggle noise noiseStrength (300 + ofNat i) 25 tt in
    let lengthOffset := noiseWiggle noise noiseStrength (400 + ofNat i) 20 tt in
    let angle := baseAngle + angleOffset in
    let spokeLength := (outerRadius - innerRadius) + lengthOffset in
    let spokeCenter := (outerRadius + innerRadius) / 2 in
    (angle, Rect spokeCenter 0 spokeLength spokeWidth)) (seq 0 24).

(** [drawCircle3]: the orange petals. *)
Definition petals3 (noiseStrength tt : Q) : list (Q * Shape) :=
  let petalLength := 120 in
  let petalWidth := 50 in
  List.map (fun i =>
    let baseAngle := ofNat i * 45 in
    let angleOffset := noiseWiggle noise noiseStrength (500 + ofNat i) 20 tt in
    let lengthOffset := noiseWiggle noise noiseStrength (600 + ofNat i) 30 tt in
    (baseAngle + angleOffset,
     Ellipse 0 (-90) petalWidth (petalLength + lengthOffset))) (seq 0 8).

(** [drawCircle4]: the yellow dots, as [(angle, radius, diameter)]. *)
Definition ringDots4 (noiseStrength tt : Q) : list (Q * Q * Q) :=
  let outerBlack := 320 in
  let blueD := 260 in
  let dotSize := 26 in
  let outerRadius := outerBlack / 2 in
  let blueRadius := blueD / 2 in
  let baseCenterRadius := (blueRadius + outerRadius) / 2 in
  List.map (fun i =>
    let angle := ofNat i * (360 / 12) in
    let radiusOffset := noiseWiggle noise noiseStrength (700 + ofNat i) 23 tt in
    let radius := baseCenterRadius + radiusOffset in
    (angle, radius, dotSize)) (seq 0 12).

(** [drawCircle7]: the purple petals. *)
Definition petals7 (noiseStrength tt : Q) : list (Q * Shape) :=
  let baseLength := 140 in
  let baseOffset := 130 in
  List.map (fun i =>
    let baseAngle := (360 / 24) * ofNat i in
    let angleOffset := noiseWiggle noise noiseStrength (1100 + ofNat i) 14 tt in
    let lengthOffset := noiseWiggle noise noiseStrength (1200 + ofNat i) 25 tt in
    (baseAngle + angleOffset,
     Ellipse 0 (- baseOffset) 18 (baseLength + lengthOffset))) (seq 0 24).

(** [drawCircle8]: the green dots. *)
Definition dots8 (noiseStrength tt : Q) : list (Q * Shape) :=
  let baseRadius := 210 in
  List.map (fun i =>
    let baseAngle := (360 / 16) * ofNat i in
    let radiusOffset := noiseWiggle noise noiseStrength (1300 + ofNat i) 25 tt in
    let radius := baseRadius + radiusOffset in
    (baseAngle, Ellipse 0 (- radius) 50 50)) (seq 0 16).

End Shapes.

(** [for (let i = 0; i < n; i++)] collecting what each turn paints. *)
Fixpoint collect (A : Type) (idx : list nat) (body : nat -> Rng -> A * Rng)
    (rg : Rng) : list A * Rng :=
  match idx with
  | [] => ([], rg)
  | i :: rest =>
      let (a, rg) := body i rg in
      let (l, rg) := collect A rest body rg in
      (a :: l, rg)
  end.
Arguments collect {A} idx body rg.

(** [drawCircle6]: the red and dark red sparks, as
    [(angle, radius, diameter)], and the random stream after them. *)
Definition sparks6 (rg : Rng) : list (Q * Q * Q) * Rng :=
  let s := 260 in
  let rg := P5.randomSeed 1234 rg in
  let (red, rg) := collect (seq 0 6) (fun i rg =>
    let (a, rg) := P5.random2 (-36) 36 rg in
    let angle := -90 + (0.8 * 360) / (6 - 1) * ofNat i + a in
    let (b, rg) := P5.random2 (-0.05 * s) (0.05 * s) rg in
    let radius := s * 0.1 + b in
    let (c, rg) := P5.random2 0.05 0.1 rg in
    ((angle, radius, c * s), rg)) rg in
  let (dark, rg) := collect (seq 0 6) (fun i rg =>
    let (a, rg) := P5.random2 (-36) 36 rg in
    let angle := -90 + (0.7 * 360) / (6 - 1) * ofNat i + a in
    let radius := if Nat.even i then s * 0.13 else s * 0.08 in
    let (c, rg) := P5.random2 0.1 0.12 rg in
    ((angle, radius, c * s), rg)) rg in
  (red ++ dark, rg).

(** A background dot [(cx, cy, r)] keeps the margin of quadrant [q]. *)
Definition dotInside (cell : Q) (q : DotConfig) (d : Q * Q * Q) : Prop :=
  let '(cx, cy, r) := d in
  rMin q <= r <= rMax q
  /\ gx q * cell + (10 + r) <= cx <= gx q * cell + (cell - 10 - r)
  /\ gy q * cell + (10 + r) <= cy <= gy q * cell + (cell - 10 - r).

(** The arguments a figure was constructed with. *)
Definition placement (c : CircleArt.t) : Q * Q * Q * DrawFn :=
  (CircleArt.x c, CircleArt.y c, CircleArt.scale c, CircleArt.drawFn c).

(** Two states of the random source that yield the same numbers: both
    seeded, at the same generator state. *)
Definition sameStream (r1 r2 : Rng) : Prop :=
  lcg_state r1 = lcg_state r2 /\ lcg_state r1 <> None.

(** More sample inputs. *)
Module Inputs.

Definition seeded : Rng := P5.randomSeed 9103 (hostRng Samples.host).

(** [NOISE] with animation switched off. *)
Definition frozen : NoiseConfig :=
  {| animate := false; speed := 0.02; wiggle := 50;
     sMin := 0.9; sMax := 1.15; rotMax := 300 |}.

End Inputs.

(** * Properties *)

(** ** Arithmetic of [map] and [constrain] *)

Lemma map_unit (u lo hi : Q) : P5.map u 0 1 lo hi == lo + u * (hi - lo).
Proof. unfold P5.map. field. Qed.

Lemma map_lerp (n a b c d : Q) :
  ~ b - a == 0 -> P5.map n a b c d == Spec.lerp n a b c d.
Proof. intro Hab. unfold P5.map, Spec.lerp. field. exact Hab. Qed.

Lemma constrain_range (n lo hi : Q) :
  lo <= hi -> lo <= P5.constrain n lo hi <= hi.
Proof.
  intro Hlh. unfold P5.constrain. split.
  - apply Q.le_max_r.
  - apply Q.max_lub; [apply Q.le_min_r | exact Hlh].
Qed.

Lemma constrain_clamp (n lo hi : Q) :
  lo <= hi -> P5.constrain n lo hi == Spec.clamp n lo hi.
Proof.
  intro Hlh. unfold P5.constrain, Spec.clamp.
  destruct (Qle_bool n lo) eqn:E1.
  - apply Qle_bool_iff in E1.
    rewrite Q.max_r; [reflexivity |].
    apply Qle_trans with n; [apply Q.le_min_l | exact E1].
  - assert (H1 : lo < n).
    { apply Qnot_le_lt. intro H. apply Qle_bool_iff in H. congruence. }
    destruct (Qle_bool hi n) eqn:E2.
    + apply Qle_bool_iff in E2.
      rewrite Q.max_l; [apply Q.min_r; exact E2 |].
      apply Q.min_glb; [apply Qlt_le_weak; exact H1 | exact Hlh].
    + assert (H2 : n < hi).
      { apply Qnot_le_lt. intro H. apply Qle_bool_iff in H. congruence. }
      rewrite Q.max_l; [apply Q.min_l; apply Qlt_le_weak; exact H2 |].
      apply Q.min_glb; [apply Qlt_le_weak; exact H1 | exact Hlh].
Qed.

Lemma constrain_compat (n n' lo hi : Q) :
  n == n' -> P5.constrain n lo hi == P5.constrain n' lo hi.
Proof. intro Hn. unfold P5.constrain. rewrite Hn. reflexivity. Qed.

(** ** Bounded offsets *)

Section Boundedness.

Variable noise : Q -> Q -> Q.
Hypothesis noise_range : forall x y, 0 <= noise x y <= 1.

Lemma noiseWiggle_affine (s seed amp time : Q) :
  noiseWiggle noise s seed amp time == (2 * noise seed time - 1) * (amp * s).
Proof. unfold noiseWiggle. rewrite map_unit. ring. Qed.

Lemma noiseWiggle_within (s seed amp time : Q) :
  0 <= amp -> 0 <= s ->
  - (amp * s) <= noiseWiggle noise s seed amp time <= amp * s.
Proof.
  intros Ha Hs. rewrite noiseWiggle_affine.
  pose proof (noise_range seed time) as [H0 H1].
  assert (0 <= amp * s) by (apply Qmult_le_0_compat; assumption).
  set (k := amp * s) in *. set (u := noise seed time) in *.
  split; nra.
Qed.

End Boundedness.

Lemma flatNoise_range : forall x y, 0 <= Samples.flatNoise x y <= 1.
Proof. intros x y. unfold Samples.flatNoise. split; discriminate. Qed.

Lemma timeNoise_range : forall x y, 0 <= Samples.timeNoise x y <= 1.
Proof.
  intros x y. unfold Samples.timeNoise.
  assert (Hsq : 0 <= y * y) by nra.
  assert (Hpos : 0 < 1 + y * y) by lra.
  split.
  - apply Qle_shift_div_l; [exact Hpos | lra].
  - apply Qle_shift_div_r; [exact Hpos | lra].
Qed.

(** C1.  With the noise sample in [[0, 1]], an amplitude [amp >= 0] and
    the global [noiseStrength] in [[0.5, 2.0]], the offset returned by
    [noiseWiggle(seed, amp, time)] is at most [amp * 2.0] in absolute
    value; at [noiseStrength = 0.5] and [amp = 20] it lies in
    [[-10, 10]]. *)
Theorem noiseWiggle_bounded :
  forall (noise : Q -> Q -> Q) (noiseStrength seed amp time : Q),
    (forall x y, 0 <= noise x y <= 1) ->
    0 <= amp ->
    0.5 <= noiseStrength <= 2.0 ->
    Qabs (noiseWiggle noise noiseStrength seed amp time) <= amp * 2.0
    /\ -10 <= noiseWiggle noise 0.5 seed 20 time <= 10.
Proof.
  intros noise s seed amp time Hn Ha [Hlo Hhi]. split.
  - destruct (noiseWiggle_within noise Hn s seed amp time Ha) as [L U];
      [lra |].
    assert (Hk : amp * s <= amp * 2.0) by nra.
    apply Qabs_Qle_condition. split; lra.
  - destruct (noiseWiggle_within noise Hn 0.5 seed 20 time) as [L U];
      lra.
Qed.

Lemma noiseWiggle_bounded_witness :
  Qabs (noiseWiggle Samples.timeNoise 0.5 42 20 3) <= 20 * 2.0
  /\ -10 <= noiseWiggle Samples.timeNoise 0.5 42 20 3 <= 10.
Proof.
  apply (noiseWiggle_bounded Samples.timeNoise 0.5 42 20 3).
  - exact timeNoise_range.
  - vm_compute. discriminate.
  - split; vm_compute; discriminate.
Defined.

(** ** Pointer mapping *)

#[local] Set Warnings "-inexact-float".

Lemma mouseMoved_noiseStrength (mx my : Q) (st : State) :
  noiseStrength (mouseMoved mx my st)
  = P5.constrain (P5.map mx 0 (width st) 0.5 2.0) 0.5 2.0.
Proof. reflexivity. Qed.

Lemma mouseMoved_timeScale (mx my : Q) (st : State) :
  timeScale (mouseMoved mx my st)
  = P5.constrain (P5.map my 0 (height st) 0.3 2.0) 0.3 2.0.
Proof. reflexivity. Qed.

Lemma constrain_inside (n lo hi : Q) :
  lo <= n -> n <= hi -> P5.constrain n lo hi == n.
Proof.
  intros H1 H2. unfold P5.constrain.
  rewrite Q.max_l; [apply Q.min_l; exact H2 |].
  apply Q.min_glb; [exact H1 | apply Qle_trans with n; assumption].
Qed.

(** C2.  On a canvas of positive size, [mouseMoved] sets [noiseStrength]
    to the clamp to [[0.5, 2.0]] of the linear interpolation of [mouseX]
    from [[0, width]] to [[0.5, 2.0]], and [timeScale] to the clamp to
    [[0.3, 2.0]] of the interpolation of [mouseY] from [[0, height]] to
    [[0.3, 2.0]]; whatever the coordinates, both stay inside their
    intervals.  On the 800x800 canvas the pointer at (400, 400) gives
    1.25 and 1.15, at (0, 0) gives 0.5 and 0.3, at (800, 800) gives 2.0
    and 2.0; binary64 arithmetic gives those same numbers. *)
Theorem mouseMoved_clamped_lerp :
  forall (mouseX mouseY : Q) (st : State),
    0 < width st ->
    0 < height st ->
    let st' := mouseMoved mouseX mouseY st in
    let canvas := createCanvas 800 800 st in
    noiseStrength st'
      == Spec.clamp (Spec.lerp mouseX 0 (width st) 0.5 2.0) 0.5 2.0
    /\ timeScale st'
      == Spec.clamp (Spec.lerp mouseY 0 (height st) 0.3 2.0) 0.3 2.0
    /\ 0.5 <= noiseStrength st' <= 2.0
    /\ 0.3 <= timeScale st' <= 2.0
    /\ (noiseStrength (mouseMoved 400 400 canvas) == 1.25
        /\ timeScale (mouseMoved 400 400 canvas) == 1.15)
    /\ (noiseStrength (mouseMoved 0 0 canvas) == 0.5
        /\ timeScale (mouseMoved 0 0 canvas) == 0.3)
    /\ (noiseStrength (mouseMoved 800 800 canvas) == 2.0
        /\ timeScale (mouseMoved 800 800 canvas) == 2.0)
    /\ Binary64.mouseMoved 400 400 800 800 = (1.25, 1.15)%float
    /\ Binary64.mouseMoved 0 0 800 800 = (0.5, 0.3)%float
    /\ Binary64.mouseMoved 800 800 800 800 = (2.0, 2.0)%float.
Proof.
  intros mx my st Hw Hh st' canvas. subst st' canvas.
  rewrite !mouseMoved_noiseStrength, !mouseMoved_timeScale.
  assert (Hs : (0.5 : Q) <= 2.0) by discriminate.
  assert (Ht : (0.3 : Q) <= 2.0) by discriminate.
  repeat split;
    try (apply constrain_range; assumption);
    try (vm_compute; reflexivity).
  - rewrite <- constrain_clamp by exact Hs.
    apply constrain_compat, map_lerp. lra.
  - rewrite <- constrain_clamp by exact Ht.
    apply constrain_compat, map_lerp. lra.
Qed.

Lemma mouseMoved_clamped_lerp_witness :
  0 < width Samples.canvas /\ 0 < height Samples.canvas
  /\ 0.5 <= noiseStrength (mouseMoved (-50) 1000 Samples.canvas) <= 2.0
  /\ 0.3 <= timeScale (mouseMoved (-50) 1000 Samples.canvas) <= 2.0.
Proof.
  assert (Hw : 0 < width Samples.canvas) by reflexivity.
  assert (Hh : 0 < height Samples.canvas) by reflexivity.
  pose proof (mouseMoved_clamped_lerp (-50) 1000 Samples.canvas Hw Hh) as H.
  cbv zeta in H.
  destruct H as (_ & _ & Hs & Ht & _).
  repeat split; solve [assumption | apply Hs | apply Ht].
Defined.

(** ** Figure updates *)

(** C3, as stated, fails: [display] samples the one-dimensional
    [noise(seed + tt)], not [noise(seed, tt)] as [noiseWiggle] does.
    With a noise function that meets the Noise Source contract but varies
    with its second coordinate, the figure's horizontal offset at time 1
    is -50 where [noiseWiggle(nx, NOISE.wiggle, 1)] is 0. *)
Lemma offsets_not_noiseWiggle :
  (forall x y, 0 <= Samples.timeNoise x y <= 1)
  /\ dx (offsets Samples.timeNoise NOISE 1 (Samples.figure drawCircle1) 1)
     == -50
  /\ noiseWiggle Samples.timeNoise 1
       (CircleArt.nx (Samples.figure drawCircle1)) (wiggle NOISE) 1 == 0
  /\ ~ dx (offsets Samples.timeNoise NOISE 1 (Samples.figure drawCircle1) 1)
       == noiseWiggle Samples.timeNoise 1
            (CircleArt.nx (Samples.figure drawCircle1)) (wiggle NOISE) 1.
Proof.
  split; [exact timeNoise_range |].
  split; [vm_compute; reflexivity |].
  split; [vm_compute; reflexivity |].
  vm_compute. discriminate.
Qed.

(** C3, amended.  The offsets computed inside [CircleArt.display] are the
    section-4.2 remapping of the noise sampled at the single coordinate
    [seed + tt]: the position and rotation offsets equal
    [noiseWiggle(seed + tt, amplitude, 0)] for the figure's [nx], [ny],
    [nr] and the amplitudes [NOISE.wiggle], [NOISE.wiggle],
    [NOISE.rotMax]; the scale is the figure's base scale times the remap
    of [noise(ns + tt)] to [[sMin, sMax * noiseStrength]]; and these are
    the values [display] hands to [translate], [rotate] and [scale]. *)
Theorem offsets_sample_seed_plus_time :
  forall (noise : Q -> Q -> Q) (cfg : NoiseConfig) (noiseStrength : Q)
         (c : CircleArt.t) (tt : Q) (g : Gfx),
    let o := offsets noise cfg noiseStrength c tt in
    dx o = noiseWiggle noise noiseStrength (CircleArt.nx c + tt) (wiggle cfg) 0
    /\ dy o = noiseWiggle noise noiseStrength (CircleArt.ny c + tt) (wiggle cfg) 0
    /\ ang o = noiseWiggle noise noiseStrength (CircleArt.nr c + tt) (rotMax cfg) 0
    /\ sc o = CircleArt.scale c
              * P5.map (noise (CircleArt.ns c + tt) 0) 0 1
                       (sMin cfg) (sMax cfg * noiseStrength)
    /\ ctm (enter noise cfg noiseStrength c tt g)
       = ctm g ++ [ Translate (CircleArt.x c + dx o) (CircleArt.y c + dy o);
                    Rotate (ang o); Scale (sc o) ].
Proof.
  intros noise cfg s c tt g o. subst o.
  repeat split.
  unfold enter, P5.scale, P5.rotate, P5.translate, P5.push. cbn [ctm saved].
  rewrite <- !app_assoc. reflexivity.
Qed.

(** C4.  The breathing factor is the linear remap of the scale sample
    [noise(ns + tt)] from [[0, 1]] to [[sMin, sMax * noiseStrength]]: the
    sample weighs [sMax * noiseStrength], its complement weighs [sMin]
    unscaled; a sample of 0 gives [sMin] whatever the intensity, a sample
    of 1 gives [sMax * noiseStrength]; the figure is scaled by its base
    scale times that factor. *)
Theorem breathing_scales_upper_bound_only :
  forall (noise : Q -> Q -> Q) (cfg : NoiseConfig) (noiseStrength : Q)
         (c : CircleArt.t) (tt : Q),
    let o := offsets noise cfg noiseStrength c tt in
    let u := noise (CircleArt.ns c + tt) 0 in
    sFactor o == (1 - u) * sMin cfg + u * (sMax cfg * noiseStrength)
    /\ sFactor (offsets (fun _ _ => 0) cfg noiseStrength c tt) == sMin cfg
    /\ sFactor (offsets (fun _ _ => 1) cfg noiseStrength c tt)
       == sMax cfg * noiseStrength
    /\ sc o = CircleArt.scale c * sFactor o.
Proof.
  intros noise cfg s c tt o u. subst o u.
  unfold offsets. cbn [sFactor sc].
  split; [rewrite map_unit; ring |].
  split; [rewrite map_unit; ring |].
  split; [rewrite map_unit; ring | reflexivity].
Qed.

(** Between the two ends the factor stays between them, in whichever
    order they come: at [noiseStrength = 0.5] the shipped configuration
    has [sMax * noiseStrength = 0.575 < sMin = 0.9]. *)
Lemma breathing_between (noise : Q -> Q -> Q) (cfg : NoiseConfig)
    (s : Q) (c : CircleArt.t) (tt : Q) :
  (forall x y, 0 <= noise x y <= 1) ->
  let f := sFactor (offsets noise cfg s c tt) in
  Qmin (sMin cfg) (sMax cfg * s) <= f <= Qmax (sMin cfg) (sMax cfg * s).
Proof.
  intros Hn f. subst f. unfold offsets. cbn [sFactor].
  rewrite map_unit.
  pose proof (Hn (CircleArt.ns c + tt) 0) as [H0 H1].
  set (u := noise (CircleArt.ns c + tt) 0) in *.
  set (hi := sMax cfg * s) in *. set (lo := sMin cfg) in *.
  destruct (Q.min_spec lo hi) as [[Hlt Hm] | [Hle Hm]];
  destruct (Q.max_spec lo hi) as [[Hlt' HM] | [Hle' HM]];
    rewrite Hm, HM; split; nra.
Qed.

(** ** Frames and events *)

Section Frames.

Variable noise : Q -> Q -> Q.
Variable cfg : NoiseConfig.

Lemma drawAllCircles_globals (tt : Q) (st : State) :
  let st' := drawAllCircles noise cfg tt st in
  t st' = t st /\ noiseStrength st' = noiseStrength st
  /\ timeScale st' = timeScale st
  /\ width st' = width st /\ height st' = height st.
Proof.
  unfold drawAllCircles.
  destruct (if (List.length (circles st) =? 0)%nat
            then instantiate (layout noise) (rng (world st))
            else (circles st, rng (world st))) as [cs rg].
  cbn. repeat split.
Qed.

Lemma drawAllCircles_cached (tt : Q) (st : State) :
  circles st <> [] -> circles (drawAllCircles noise cfg tt st) = circles st.
Proof.
  intro Hne. unfold drawAllCircles.
  destruct (circles st) as [| c cs] eqn:E; [congruence |].
  reflexivity.
Qed.

Lemma drawAllCircles_first (tt : Q) (st : State) :
  circles st = [] ->
  circles (drawAllCircles noise cfg tt st)
  = fst (instantiate (layout noise) (rng (world st))).
Proof.
  intro E. unfold drawAllCircles. rewrite E. cbn [List.length Nat.eqb].
  destruct (instantiate (layout noise) (rng (world st))) as [cs rg].
  reflexivity.
Qed.

Lemma draw_clock (st : State) :
  t (draw noise cfg st)
  = if animate cfg then t st + speed cfg * timeScale st else t st.
Proof.
  unfold draw.
  match goal with
  | |- t (drawAllCircles _ _ _ ?s) = _ =>
      destruct (drawAllCircles_globals (t s) s) as [H _]
  end.
  exact H.
Qed.

Lemma draw_timeScale (st : State) :
  timeScale (draw noise cfg st) = timeScale st.
Proof.
  unfold draw.
  match goal with
  | |- timeScale (drawAllCircles _ _ ?a ?s) = _ =>
      destruct (drawAllCircles_globals a s) as (_ & _ & H & _)
  end.
  exact H.
Qed.

Lemma draw_canvas (st : State) :
  width (draw noise cfg st) = width st /\ height (draw noise cfg st) = height st.
Proof.
  unfold draw.
  match goal with
  | |- width (drawAllCircles _ _ ?a ?s) = _ /\ _ =>
      destruct (drawAllCircles_globals a s) as (_ & _ & _ & Hw & Hh)
  end.
  split; assumption.
Qed.

Lemma draw_cached (st : State) :
  circles st <> [] -> circles (draw noise cfg st) = circles st.
Proof.
  intro Hne. unfold draw.
  rewrite drawAllCircles_cached; [reflexivity | exact Hne].
Qed.

Lemma draw_first (st : State) :
  circles st = [] ->
  circles (draw noise cfg st)
  = fst (instantiate (layout noise)
           (snd (backgroundDots (width st) (rng (world st))))).
Proof. intro E. unfold draw. rewrite drawAllCircles_first; [reflexivity | exact E]. Qed.

Lemma handle_clock (i : InputEvent) (st : State) : t (handle i st) = t st.
Proof. destruct i; reflexivity. Qed.

Lemma handle_circles (i : InputEvent) (st : State) :
  circles (handle i st) = circles st.
Proof. destruct i; reflexivity. Qed.

Lemma handle_canvas (i : InputEvent) (st : State) :
  width (handle i st) = width st /\ height (handle i st) = height st.
Proof. destruct i; split; reflexivity. Qed.

Lemma handle_timeScale_pos (i : InputEvent) (st : State) :
  0 < timeScale st -> 0 < timeScale (handle i st).
Proof.
  intro Hpos. destruct i as [mx my | w h]; [| exact Hpos].
  cbn [handle]. rewrite mouseMoved_timeScale.
  apply Qlt_le_trans with 0.3; [reflexivity |].
  apply constrain_range. discriminate.
Qed.

Lemma step_circles (e : Event) (st : State) :
  circles st <> [] -> circles (step noise cfg st e) = circles st.
Proof.
  intro Hne. destruct e as [| i]; cbn [step].
  - apply draw_cached. exact Hne.
  - apply handle_circles.
Qed.

Lemma run_circles (es : list Event) (st : State) :
  circles st <> [] -> circles (run noise cfg es st) = circles st.
Proof.
  revert st. induction es as [| e es IH]; intros st Hne; [reflexivity |].
  unfold run in *. cbn [fold_left].
  rewrite IH; rewrite step_circles by exact Hne; [reflexivity | exact Hne].
Qed.

Lemma run_app (es es' : list Event) (st : State) :
  run noise cfg (es ++ es') st = run noise cfg es' (run noise cfg es st).
Proof. unfold run. apply fold_left_app. Qed.

Lemma run_inputs_circles (pre : list InputEvent) (st : State) :
  circles (run noise cfg (List.map Input pre) st) = circles st.
Proof.
  revert st. induction pre as [| i pre IH]; intro st; [reflexivity |].
  unfold run in *. cbn [List.map fold_left step].
  rewrite IH. apply handle_circles.
Qed.

Lemma run_inputs_canvas (pre : list InputEvent) (st : State) :
  width (run noise cfg (List.map Input pre) st) = width st.
Proof.
  revert st. induction pre as [| i pre IH]; intro st; [reflexivity |].
  unfold run in *. cbn [List.map fold_left step].
  rewrite IH. apply handle_canvas.
Qed.

Lemma step_timeScale_pos (e : Event) (st : State) :
  0 < timeScale st -> 0 < timeScale (step noise cfg st e).
Proof.
  intro Hpos. destruct e as [| i]; cbn [step].
  - rewrite draw_timeScale. exact Hpos.
  - apply handle_timeScale_pos. exact Hpos.
Qed.

Lemma run_timeScale_pos (es : list Event) (st : State) :
  0 < timeScale st -> 0 < timeScale (run noise cfg es st).
Proof.
  revert st. induction es as [| e es IH]; intros st Hpos; [exact Hpos |].
  unfold run in *. cbn [fold_left]. apply IH, step_timeScale_pos, Hpos.
Qed.

Lemma frames_S (n : nat) (st : State) :
  frames noise cfg (S n) st = frames noise cfg n (draw noise cfg st).
Proof. reflexivity. Qed.

Lemma frames_timeScale (n : nat) (st : State) :
  timeScale (frames noise cfg n st) = timeScale st.
Proof.
  revert st. induction n as [| n IH]; intro st; [reflexivity |].
  rewrite frames_S, IH. apply draw_timeScale.
Qed.

Lemma ofNat_S (n : nat) : ofNat (S n) == ofNat n + 1.
Proof.
  unfold ofNat. rewrite Nat2Z.inj_succ. unfold Z.succ.
  rewrite inject_Z_plus. reflexivity.
Qed.

Hypothesis animated : animate cfg = true.

Lemma draw_tick (st : State) :
  t (draw noise cfg st) = t st + speed cfg * timeScale st.
Proof. rewrite draw_clock, animated. reflexivity. Qed.

Lemma frames_clock (n : nat) (st : State) :
  t (frames noise cfg n st) == t st + ofNat n * (speed cfg * timeScale st).
Proof.
  revert st. induction n as [| n IH]; intro st.
  - change (frames noise cfg 0 st) with st.
    change (ofNat 0) with (0 : Q). ring.
  - rewrite frames_S, IH, draw_tick, draw_timeScale, ofNat_S. ring.
Qed.

Hypothesis speed_pos : 0 < speed cfg.

Lemma step_clock_mono (e : Event) (st : State) :
  0 < timeScale st -> t st <= t (step noise cfg st e).
Proof.
  intro Hpos. destruct e as [| i]; cbn [step].
  - rewrite draw_tick.
    assert (0 < speed cfg * timeScale st)
      by (apply Qmult_lt_0_compat; assumption).
    lra.
  - rewrite handle_clock. apply Qle_refl.
Qed.

Lemma run_clock_mono (es : list Event) (st : State) :
  0 < timeScale st -> t st <= t (run noise cfg es st).
Proof.
  revert st. induction es as [| e es IH]; intros st Hpos; [apply Qle_refl |].
  unfold run in *. cbn [fold_left].
  apply Qle_trans with (t (step noise cfg st e)).
  - apply step_clock_mono. exact Hpos.
  - apply IH, step_timeScale_pos, Hpos.
Qed.

End Frames.

(** ** The animation clock *)

(** C6.  With animation on and a positive base step, each frame adds
    exactly [speed * timeScale] to the clock and no input event touches
    it; so the clock never decreases over any sequence of events, a frame
    with [timeScale > 0] strictly increases it whatever came before, [N >
    0] frames strictly increase it, and with [timeScale = 0] any number of
    frames leave it unchanged. *)
Theorem clock_advances_monotonically :
  forall (noise : Q -> Q -> Q) (cfg : NoiseConfig),
    animate cfg = true ->
    0 < speed cfg ->
    (forall st, t (draw noise cfg st) = t st + speed cfg * timeScale st)
    /\ (forall i st, t (handle i st) = t st)
    /\ (forall es st, 0 < timeScale st -> t st <= t (run noise cfg es st))
    /\ (forall es st, 0 < timeScale st ->
          t (run noise cfg es st) < t (run noise cfg (es ++ [Frame]) st))
    /\ (forall n st, 0 < timeScale st -> (0 < n)%nat ->
          t st < t (frames noise cfg n st))
    /\ (forall n st, timeScale st == 0 -> t (frames noise cfg n st) == t st).
Proof.
  intros noise cfg Hanim Hspeed.
  split; [intro st; apply draw_tick; exact Hanim |].
  split; [intros i st; apply handle_clock |].
  split; [intros es st; apply run_clock_mono; assumption |].
  split; [| split].
  - intros es st Hpos. rewrite run_app.
    change (run noise cfg [Frame] ?s) with (draw noise cfg s).
    rewrite draw_tick by exact Hanim.
    pose proof (run_timeScale_pos noise cfg es st Hpos) as Hts.
    assert (0 < speed cfg * timeScale (run noise cfg es st))
      by (apply Qmult_lt_0_compat; assumption).
    lra.
  - intros n st Hpos Hn. rewrite frames_clock by exact Hanim.
    assert (Hk : 0 < ofNat n).
    { unfold ofNat. change 0 with (inject_Z 0). rewrite <- Zlt_Qlt. lia. }
    assert (0 < speed cfg * timeScale st)
      by (apply Qmult_lt_0_compat; assumption).
    assert (0 < ofNat n * (speed cfg * timeScale st))
      by (apply Qmult_lt_0_compat; assumption).
    lra.
  - intros n st Hzero. rewrite frames_clock by exact Hanim.
    rewrite Hzero. ring.
Qed.

Lemma clock_advances_monotonically_witness :
  animate NOISE = true /\ 0 < speed NOISE
  /\ t Samples.canvas < t (frames Samples.flatNoise NOISE 100 Samples.canvas)
  /\ t (frames Samples.flatNoise NOISE 100 Samples.still) == t Samples.still.
Proof.
  assert (Ha : animate NOISE = true) by reflexivity.
  assert (Hs : 0 < speed NOISE) by reflexivity.
  destruct (clock_advances_monotonically Samples.flatNoise NOISE Ha Hs)
    as (_ & _ & _ & _ & Hup & Hstill).
  split; [exact Ha |]. split; [exact Hs |]. split.
  - apply Hup; [reflexivity | apply Nat.lt_0_succ].
  - apply Hstill. reflexivity.
Defined.

Lemma setup_returns (h : Host) :
  setup (loaded h) = Returned (centerCanvas (createCanvas 800 800 (loaded h))).
Proof. reflexivity. Qed.

(** C7, as stated, fails in the arithmetic the sketch runs in: one
    hundred additions of [0.02 * 1.0] to 0 in binary64 do not give 2.0. *)
Lemma hundred_frames_not_exactly_two :
  Binary64.ticks 100 1.0 0 <> 2.0%float.
Proof.
  intro H.
  assert (E : PrimFloat.eqb (Binary64.ticks 100 1.0 0) 2.0 = false)
    by (vm_compute; reflexivity).
  rewrite H in E. vm_compute in E. discriminate E.
Qed.

(** C7, amended.  Starting from clock 0 with [timeScale] 1.0 and base
    step 0.02, one hundred frames leave the clock at 2 in exact
    arithmetic; in binary64 they leave it at 2.0000000000000013, three
    units in the last place (3 * 2^-51) above 2.0. *)
Theorem hundred_frames_clock :
  Binary64.ticks 100 1.0 0 = 0x1.0000000000003p+1%float
  /\ (Binary64.ticks 100 1.0 0 - 2.0 = 0x1.8p-50)%float
  /\ forall (noise : Q -> Q -> Q) (h : Host),
       exists st, setup (loaded h) = Returned st
                  /\ t st = 0 /\ timeScale st = 1.0
                  /\ t (frames noise NOISE 100 st) == 2.
Proof.
  split; [vm_compute; reflexivity |].
  split; [vm_compute; reflexivity |].
  intros noise h. eexists. split; [apply setup_returns |].
  split; [reflexivity |]. split; [reflexivity |].
  rewrite frames_clock by reflexivity.
  vm_compute. reflexivity.
Qed.

(** ** The composition registry *)

Lemma instantiate_length (l : list (Q * Q * Q * DrawFn)) (rg : Rng) :
  List.length (fst (instantiate l rg)) = List.length l.
Proof.
  revert rg. induction l as [| [[[x0 y0] s0] fn] l IH]; intro rg;
    [reflexivity |].
  cbn [instantiate].
  destruct (CircleArt.new x0 y0 s0 fn rg) as [c rg1].
  specialize (IH rg1).
  destruct (instantiate l rg1) as [cs rg2].
  cbn in *. rewrite IH. reflexivity.
Qed.

Lemma first_frame_populates (noise : Q -> Q -> Q) (cfg : NoiseConfig)
    (st : State) :
  circles st = [] -> List.length (circles (draw noise cfg st)) = 12%nat.
Proof.
  intro E. rewrite draw_first by exact E. apply instantiate_length.
Qed.

Lemma session_returns (noise : Q -> Q -> Q) (cfg : NoiseConfig) (h : Host)
    (es : list Event) :
  session noise cfg h es
  = Returned (run noise cfg es
                (centerCanvas (createCanvas 800 800 (loaded h)))).
Proof. reflexivity. Qed.

(** ** The seeded stream *)

Lemma rand_seeded (r : Rng) (s : Z) :
  lcg_state r = Some s ->
  P5.rand r = (lcg_next s # 4294967296,
               mkRng (Some (lcg_next s)) (ambient r) (ambient_pos r)).
Proof. intro E. unfold P5.rand. rewrite E. reflexivity. Qed.

Lemma random2_stream (lo hi : Q) (r : Rng) :
  snd (P5.random2 lo hi r) = snd (P5.rand r).
Proof.
  unfold P5.random2. destruct (P5.rand r) as [u r'].
  destruct (Qle_bool lo hi); reflexivity.
Qed.

Lemma draws_S (k : nat) (r : Rng) :
  draws (S k) r = draws k (snd (P5.rand r)).
Proof. unfold draws. rewrite Nat.iter_succ_r. reflexivity. Qed.

Lemma draws_add (j k : nat) (r : Rng) :
  draws (j + k) r = draws k (draws j r).
Proof.
  revert r. induction j as [| j IH]; intro r; [reflexivity |].
  cbn [Nat.add]. rewrite !draws_S. apply IH.
Qed.

Lemma scatterDot_stream (cell bx by_ : Q) (q : DotConfig) (rg : Rng) :
  snd (scatterDot cell bx by_ q rg) = draws 3 rg.
Proof.
  unfold scatterDot.
  pose proof (random2_stream (rMin q) (rMax q) rg) as H1.
  destruct (P5.random2 (rMin q) (rMax q) rg) as [r rg1]. cbn [snd] in H1.
  pose proof (random2_stream (10 + r) (cell - 10 - r) rg1) as H2.
  destruct (P5.random2 (10 + r) (cell - 10 - r) rg1) as [ux rg2].
  cbn [snd] in H2.
  pose proof (random2_stream (10 + r) (cell - 10 - r) rg2) as H3.
  destruct (P5.random2 (10 + r) (cell - 10 - r) rg2) as [uy rg3].
  cbn [snd] in H3.
  cbn [snd]. subst rg3 rg2 rg1. reflexivity.
Qed.

Lemma scatterDots_stream (n : nat) (cell bx by_ : Q) (q : DotConfig)
    (rg : Rng) :
  snd (scatterDots n cell bx by_ q rg) = draws (3 * n) rg.
Proof.
  revert rg. induction n as [| n IH]; intro rg; [reflexivity |].
  cbn [scatterDots].
  pose proof (scatterDot_stream cell bx by_ q rg) as H1.
  destruct (scatterDot cell bx by_ q rg) as [d rg1]. cbn [snd] in H1.
  specialize (IH rg1).
  destruct (scatterDots n cell bx by_ q rg1) as [ds rg2]. cbn [snd] in *.
  subst rg2 rg1.
  replace (3 * S n)%nat with (3 + 3 * n)%nat by lia.
  rewrite draws_add. reflexivity.
Qed.

Lemma scatterQuadrants_stream (qs : list DotConfig) (cell : Q) (rg : Rng) :
  snd (scatterQuadrants qs cell rg)
  = draws (3 * list_sum (List.map count qs)) rg.
Proof.
  revert rg. induction qs as [| q qs IH]; intro rg; [reflexivity |].
  replace (3 * list_sum (List.map count (q :: qs)))%nat
    with (3 * count q + 3 * list_sum (List.map count qs))%nat
    by (cbn [List.map]; unfold list_sum; cbn [fold_right]; lia).
  cbn [scatterQuadrants].
  pose proof (scatterDots_stream (count q) cell (gx q * cell) (gy q * cell)
                q rg) as H1.
  destruct (scatterDots (count q) cell (gx q * cell) (gy q * cell) q rg)
    as [ds rg1]. cbn [snd] in H1.
  specialize (IH rg1).
  destruct (scatterQuadrants qs cell rg1) as [ds' rg2]. cbn [snd] in *.
  subst rg2 rg1.
  rewrite draws_add. reflexivity.
Qed.

Lemma draws_seeded (k : nat) (r : Rng) (s : Z) :
  lcg_state r = Some s ->
  lcg_state (draws k r) = Some (lcg_advance k s).
Proof.
  revert r s. induction k as [| k IH]; intros r s E; [exact E |].
  rewrite draws_S.
  unfold lcg_advance. rewrite Nat.iter_succ_r. fold (lcg_advance k (lcg_next s)).
  apply IH. rewrite (rand_seeded r s E). reflexivity.
Qed.

(** After the background is drawn the stream is the one seeded with 9103,
    240 draws in, whatever it was before and whatever the canvas size. *)
Lemma backgroundDots_stream (width : Q) (rg : Rng) :
  lcg_state (snd (backgroundDots width rg))
  = Some (lcg_advance 240 9103).
Proof.
  unfold backgroundDots. rewrite scatterQuadrants_stream.
  change (3 * list_sum (List.map count dotConfig))%nat with 240%nat.
  apply draws_seeded. reflexivity.
Qed.

Lemma new_seeded (x0 y0 s0 : Q) (fn : DrawFn) (r : Rng) (s : Z) :
  lcg_state r = Some s ->
  let s1 := lcg_next s in
  let s2 := lcg_next s1 in
  let s3 := lcg_next s2 in
  let s4 := lcg_next s3 in
  CircleArt.seeds (fst (CircleArt.new x0 y0 s0 fn r))
  = ((s1 # 4294967296) * 1000, (s2 # 4294967296) * 1000,
     (s3 # 4294967296) * 1000, (s4 # 4294967296) * 1000)
  /\ lcg_state (snd (CircleArt.new x0 y0 s0 fn r)) = Some s4.
Proof.
  intros E s1 s2 s3 s4. unfold CircleArt.new, P5.random1.
  rewrite (rand_seeded r s E). cbv beta iota.
  rewrite (rand_seeded (mkRng (Some s1) _ _) s1 eq_refl). cbv beta iota.
  rewrite (rand_seeded (mkRng (Some s2) _ _) s2 eq_refl). cbv beta iota.
  rewrite (rand_seeded (mkRng (Some s3) _ _) s3 eq_refl). cbv beta iota.
  split; reflexivity.
Qed.

Lemma instantiate_seeded (l : list (Q * Q * Q * DrawFn)) (r : Rng) (s : Z) :
  lcg_state r = Some s ->
  List.map CircleArt.seeds (fst (instantiate l r))
  = lcgSeeds (List.length l) s.
Proof.
  revert r s. induction l as [| [[[x0 y0] s0] fn] l IH]; intros r s E;
    [reflexivity |].
  cbn [instantiate List.length lcgSeeds].
  destruct (new_seeded x0 y0 s0 fn r s E) as [Hseeds Hstate].
  destruct (CircleArt.new x0 y0 s0 fn r) as [c r1]. cbn [fst snd] in *.
  specialize (IH r1 _ Hstate).
  destruct (instantiate l r1) as [cs r2]. cbn [fst List.map] in *.
  rewrite Hseeds, IH. reflexivity.
Qed.

(** C10.  The figures' seeds do not depend on the session: whatever the
    host's window and random sources, whatever input precedes the first
    frame and whatever follows it, the twelve figures carry the seeds
    [registrySeeds], the numbers the stream of [randomSeed(9103)] yields
    after the 240 draws of the background dots; any two sessions agree on
    them. *)
Theorem seeds_identical_across_sessions :
  forall (noise : Q -> Q -> Q) (cfg : NoiseConfig) (h1 h2 : Host)
         (pre1 pre2 : list InputEvent) (es1 es2 : list Event),
    exists s1 s2 : State,
      session noise cfg h1 (List.map Input pre1 ++ Frame :: es1) = Returned s1
      /\ session noise cfg h2 (List.map Input pre2 ++ Frame :: es2)
         = Returned s2
      /\ List.map CircleArt.seeds (circles s1) = registrySeeds
      /\ List.map CircleArt.seeds (circles s2) = registrySeeds
      /\ List.map CircleArt.seeds (circles s1)
         = List.map CircleArt.seeds (circles s2).
Proof.
  assert (Hone : forall noise cfg h pre es,
    List.map CircleArt.seeds
      (circles (run noise cfg (List.map Input pre ++ Frame :: es)
                  (centerCanvas (createCanvas 800 800 (loaded h)))))
    = registrySeeds).
  { intros noise cfg h pre es.
    set (st0 := centerCanvas (createCanvas 800 800 (loaded h))).
    assert (Hbefore : circles (run noise cfg (List.map Input pre) st0) = [])
      by (rewrite run_inputs_circles; reflexivity).
    rewrite run_app.
    change (run noise cfg (Frame :: es) ?s)
      with (run noise cfg es (draw noise cfg s)).
    pose proof (first_frame_populates noise cfg _ Hbefore) as Hlen.
    rewrite run_circles
      by (intro E; rewrite E in Hlen; discriminate Hlen).
    rewrite draw_first by exact Hbefore.
    rewrite (instantiate_seeded _ _ _ (backgroundDots_stream _ _)).
    vm_compute. reflexivity. }
  intros noise cfg h1 h2 pre1 pre2 es1 es2.
  eexists. eexists.
  rewrite !session_returns.
  split; [reflexivity |]. split; [reflexivity |].
  rewrite !Hone. repeat split.
Qed.

(** ** The scoped coordinate frame *)

Lemma gfx_eta (g : Gfx) : mkGfx (ctm g) (saved g) = g.
Proof. destruct g. reflexivity. Qed.

Lemma pop_push (g : Gfx) : P5.pop (P5.push g) = g.
Proof. unfold P5.pop, P5.push. cbn [saved ctm]. apply gfx_eta. Qed.

Lemma pop_rotate_push (deg : Q) (g : Gfx) :
  P5.pop (P5.rotate deg (P5.push g)) = g.
Proof. unfold P5.pop, P5.rotate, P5.push. cbn [saved ctm]. apply gfx_eta. Qed.

Lemma enter_frame (noise : Q -> Q -> Q) (cfg : NoiseConfig) (s : Q)
    (c : CircleArt.t) (tt : Q) (g : Gfx) :
  let o := offsets noise cfg s c tt in
  enter noise cfg s c tt g
  = mkGfx (ctm g ++ [ Translate (CircleArt.x c + dx o) (CircleArt.y c + dy o);
                      Rotate (ang o); Scale (sc o) ])
          (ctm g :: saved g).
Proof.
  intro o. subst o.
  unfold enter, P5.scale, P5.rotate, P5.translate, P5.push. cbn [ctm saved].
  rewrite <- !app_assoc. reflexivity.
Qed.

Lemma for_invariant (A : Type) (f : World -> A) (n : nat)
    (body : nat -> World -> World) (w : World) :
  (forall i w', f (body i w') = f w') -> f (for_ n body w) = f w.
Proof.
  intro Hbody. unfold for_. generalize (seq 0 n). intro l. revert w.
  induction l as [| i l IH]; intro w; [reflexivity |].
  cbn [fold_left]. rewrite IH. apply Hbody.
Qed.

Lemma display_restores (noise : Q -> Q -> Q) (cfg : NoiseConfig) (s : Q)
    (c : CircleArt.t) (tt : Q) (w : World) :
  (forall w', saved (gfx (CircleArt.drawFn c s tt w')) = saved (gfx w')) ->
  gfx (display noise cfg s c tt w) = gfx w.
Proof.
  intro Hbal. unfold display, on_gfx at 1. cbn [gfx].
  unfold P5.pop. rewrite Hbal. unfold on_gfx. cbn [gfx].
  rewrite enter_frame. cbn [saved]. apply gfx_eta.
Qed.

(** The eight routines of the sketch leave the renderer's transform state
    as they find it. *)
Lemma routines_balanced (noise : Q -> Q -> Q) (x0 y0 s0 : Q) (fn : DrawFn) :
  In (x0, y0, s0, fn) (layout noise) ->
  forall s tt w, gfx (fn s tt w) = gfx w.
Proof.
  intros Hin s tt w.
  assert (Hloop : forall n (ang : nat -> Q) w0,
    gfx (for_ n (fun i w1 =>
           on_gfx P5.pop (on_gfx (P5.rotate (ang i)) (on_gfx P5.push w1))) w0)
    = gfx w0).
  { intros n ang w0. apply for_invariant. intros i w1.
    unfold on_gfx. cbn [gfx]. apply pop_rotate_push. }
  assert (H5 : gfx (drawCircle5 noise s tt w) = gfx w).
  { unfold drawCircle5, on_gfx at 1. cbn [gfx]. unfold P5.pop.
    rewrite (for_invariant _ (fun w => saved (gfx w)));
      [| intros i w1; reflexivity].
    unfold on_gfx at 1. cbn [gfx P5.push saved]. apply gfx_eta. }
  assert (H6 : gfx (drawCircle6 s tt w) = gfx w).
  { unfold drawCircle6.
    rewrite !(for_invariant _ gfx); [reflexivity | |];
      intros i w1; reflexivity. }
  cbn [layout In] in Hin.
  repeat (destruct Hin as [Hin | Hin];
          [injection Hin as _ _ _ Hfn; subst fn;
           first [ exact H5 | exact H6 | reflexivity | apply Hloop ] |]).
  contradiction.
Qed.

(** C8, as stated, fails: [display] brackets the routine with a plain
    [push()]/[pop()], so a routine that leaves a [push()] of its own
    unmatched makes [display]'s [pop()] restore the routine's frame
    instead, and the transform state after the call differs from the one
    before it. *)
Lemma display_leaks_with_unbalanced_routine :
  gfx (display Samples.flatNoise NOISE 1 (Samples.figure Samples.leaky) 1
         Samples.blank)
  <> gfx Samples.blank.
Proof. vm_compute. discriminate. Qed.

(** C8, amended.  For every figure whose drawing routine leaves the stack
    of saved transforms as it found it, [display] runs the routine in the
    frame translated by the base position plus the sampled offsets, then
    rotated, then scaled, with the caller's transform saved on top of the
    stack, and after [display] returns the transform state is exactly what
    it was before the call. *)
Theorem display_restores_transform :
  forall (noise : Q -> Q -> Q) (cfg : NoiseConfig) (noiseStrength : Q)
         (c : CircleArt.t) (tt : Q) (w : World),
    (forall w', saved (gfx (CircleArt.drawFn c noiseStrength tt w'))
                = saved (gfx w')) ->
    let o := offsets noise cfg noiseStrength c tt in
    let inside := on_gfx (enter noise cfg noiseStrength c tt) w in
    display noise cfg noiseStrength c tt w
      = on_gfx P5.pop (CircleArt.drawFn c noiseStrength tt inside)
    /\ ctm (gfx inside)
       = ctm (gfx w)
         ++ [ Translate (CircleArt.x c + dx o) (CircleArt.y c + dy o);
              Rotate (ang o); Scale (sc o) ]
    /\ saved (gfx inside) = ctm (gfx w) :: saved (gfx w)
    /\ gfx (display noise cfg noiseStrength c tt w) = gfx w.
Proof.
  intros noise cfg s c tt w Hbal o inside. subst o inside.
  split; [reflexivity |].
  unfold on_gfx at 1 2. cbn [gfx]. rewrite enter_frame. cbn [ctm saved].
  split; [reflexivity |]. split; [reflexivity |].
  apply display_restores. exact Hbal.
Qed.

Lemma display_restores_transform_witness :
  gfx (display Samples.flatNoise NOISE 1 Samples.petals 1 Samples.blank)
  = gfx Samples.blank.
Proof.
  refine (proj2 (proj2 (proj2
    (display_restores_transform Samples.flatNoise NOISE 1 Samples.petals 1
       Samples.blank _)))).
  intro w'. unfold Samples.petals. cbn [Samples.figure CircleArt.drawFn].
  rewrite (routines_balanced Samples.flatNoise 20 700 1.0
             (drawCircle5 Samples.flatNoise));
    [reflexivity |].
  cbn [layout In]. do 9 right. left. reflexivity.
Defined.

(** Every figure of the registry is drawn with its transform restored. *)
Lemma registry_display_restores (noise : Q -> Q -> Q) (cfg : NoiseConfig)
    (s tt : Q) (rg : Rng) (c : CircleArt.t) (w : World) :
  In c (fst (instantiate (layout noise) rg)) ->
  gfx (display noise cfg s c tt w) = gfx w.
Proof.
  intro Hin. apply display_restores. intro w'.
  assert (Hfn : exists x0 y0 s0,
            In (x0, y0, s0, CircleArt.drawFn c) (layout noise)).
  { revert rg Hin. generalize (layout noise) as l.
    induction l as [| [[[x0 y0] s0] fn] l IH]; intros rg Hin;
      [contradiction |].
    cbn [instantiate] in Hin.
    destruct (CircleArt.new x0 y0 s0 fn rg) as [c1 rg1] eqn:Enew.
    destruct (instantiate l rg1) as [cs rg2] eqn:Erest.
    cbn [fst] in Hin. destruct Hin as [Hc | Hc].
    - subst c1. exists x0, y0, s0. left.
      unfold CircleArt.new in Enew.
      destruct (P5.random1 1000 rg) as [a1 q1].
      destruct (P5.random1 1000 q1) as [a2 q2].
      destruct (P5.random1 1000 q2) as [a3 q3].
      destruct (P5.random1 1000 q3) as [a4 q4].
      injection Enew as Ec _. subst c. reflexivity.
    - destruct (IH rg1) as (x1 & y1 & s1 & H1).
      + rewrite Erest. exact Hc.
      + exists x1, y1, s1. right. exact H1. }
  destruct Hfn as (x0 & y0 & s0 & Hfn).
  rewrite (routines_balanced noise x0 y0 s0 _ Hfn). reflexivity.
Qed.

(** ** Configuration *)

(** C9, as stated, fails: the sketch never inspects [NOISE].  With
    [sMin > sMax] and a negative [wiggle], [setup] returns and the first
    frame is drawn; nothing is thrown. *)
Lemma invalid_config_is_not_rejected :
  Spec.validConfig Samples.badConfig = false
  /\ ~ (exists msg, setup (loaded Samples.host) = Thrown msg)
  /\ ~ (exists msg,
          session Samples.flatNoise Samples.badConfig Samples.host [Frame]
          = Thrown msg).
Proof.
  split; [reflexivity |]. split.
  - intros [msg H]. rewrite setup_returns in H. discriminate H.
  - intros [msg H]. rewrite session_returns in H. discriminate H.
Qed.

(** C9, amended.  The sketch performs no configuration check: for every
    configuration, valid or not, [setup] returns, every sequence of events
    runs to a state, and the first frame builds the twelve figures; the
    configuration the sketch ships with is a valid one. *)
Theorem no_configuration_is_rejected :
  forall (noise : Q -> Q -> Q) (cfg : NoiseConfig) (h : Host)
         (es : list Event),
    (exists st, setup (loaded h) = Returned st)
    /\ (exists st, session noise cfg h es = Returned st)
    /\ (exists st, session noise cfg h [Frame] = Returned st
                   /\ List.length (circles st) = 12%nat)
    /\ Spec.validConfig NOISE = true.
Proof.
  intros noise cfg h es.
  split; [eexists; apply setup_returns |].
  split; [eexists; apply session_returns |].
  split; [| reflexivity].
  eexists. split; [apply session_returns |].
  change (run noise cfg [Frame] ?s) with (draw noise cfg s).
  apply first_frame_populates. reflexivity.
Qed.

(** ** The model at work on sample inputs *)

Example two_frames_advance_the_clock :
  t (frames Samples.flatNoise NOISE 2 Samples.canvas) == 0.04.
Proof. vm_compute. reflexivity. Qed.

Example first_frame_reseeds_the_stream :
  lcg_state (rng (world (draw Samples.flatNoise NOISE Samples.canvas)))
  = Some (lcg_advance 30 1234).
Proof. vm_compute. reflexivity. Qed.

Example unbalanced_routine_leaves_its_frame :
  let g := gfx (display Samples.flatNoise NOISE 1
                  (Samples.figure Samples.leaky) 1 Samples.blank) in
  saved g = [ctm (gfx Samples.blank)] /\ List.length (ctm g) = 3%nat.
Proof. split; vm_compute; reflexivity. Qed.

Example pointer_left_of_the_canvas :
  noiseStrength (mouseMoved (-50) 1000 Samples.canvas) == 0.5
  /\ timeScale (mouseMoved (-50) 1000 Samples.canvas) == 2.0.
Proof. split; vm_compute; reflexivity. Qed.

(** * Further properties of the sketch *)

(** ** Centring the canvas *)

(** X1.  [centerCanvas] never places the canvas at a negative offset: on
    each axis the canvas is either pinned at 0 or has the same margin on
    both sides; the call changes nothing but the position, and centring
    twice is the same as centring once. *)
Theorem centerCanvas_position :
  forall st : State,
    let st' := centerCanvas st in
    0 <= fst (cnvPos st') /\ 0 <= snd (cnvPos st')
    /\ (fst (cnvPos st') == 0
        \/ fst (cnvPos st') + width st + fst (cnvPos st') == windowWidth st)
    /\ (snd (cnvPos st') == 0
        \/ snd (cnvPos st') + height st + snd (cnvPos st') == windowHeight st)
    /\ (t st', noiseStrength st', timeScale st', circles st', world st')
       = (t st, noiseStrength st, timeScale st, circles st, world st)
    /\ centerCanvas st' = st'.
Proof.
  intros st st'. subst st'. unfold centerCanvas, P5.max. cbn [cnvPos fst snd].
  split; [apply Q.le_max_l |]. split; [apply Q.le_max_l |].
  split; [| split; [| split; reflexivity]].
  - destruct (Q.max_spec 0 ((windowWidth st - width st) / 2))
      as [[_ H] | [_ H]]; [right | left; exact H].
    rewrite H. field.
  - destruct (Q.max_spec 0 ((windowHeight st - height st) / 2))
      as [[_ H] | [_ H]]; [right | left; exact H].
    rewrite H. field.
Qed.

(** X2.  [centerCanvas] treats the two axes independently.  On an axis
    where the window is at least as large as the canvas, the canvas is put
    at half the free space; on an axis where the window is not larger
    than the canvas, it is put at 0.  [windowResized] gives the same
    position. *)
Theorem centerCanvas_centres :
  forall st : State,
    (width st <= windowWidth st ->
       fst (cnvPos (centerCanvas st)) == (windowWidth st - width st) / 2)
    /\ (windowWidth st <= width st ->
          fst (cnvPos (centerCanvas st)) == 0)
    /\ (height st <= windowHeight st ->
          snd (cnvPos (centerCanvas st)) == (windowHeight st - height st) / 2)
    /\ (windowHeight st <= height st ->
          snd (cnvPos (centerCanvas st)) == 0)
    /\ cnvPos (windowResized st) = cnvPos (centerCanvas st).
Proof.
  intro st. unfold windowResized, centerCanvas, P5.max.
  cbn [cnvPos fst snd].
  split; [| split; [| split; [| split; [| reflexivity]]]]; intro H.
  - apply Q.max_r. apply Qle_shift_div_l; [reflexivity | lra].
  - apply Q.max_l. apply Qle_shift_div_r; [reflexivity | lra].
  - apply Q.max_r. apply Qle_shift_div_l; [reflexivity | lra].
  - apply Q.max_l. apply Qle_shift_div_r; [reflexivity | lra].
Qed.

Lemma centerCanvas_centres_witness :
  width Samples.canvas <= windowWidth Samples.canvas
  /\ windowHeight Samples.canvas <= height Samples.canvas
  /\ fst (cnvPos (centerCanvas Samples.canvas)) == 240
  /\ snd (cnvPos (centerCanvas Samples.canvas)) == 0.
Proof.
  assert (Hw : width Samples.canvas <= windowWidth Samples.canvas)
    by discriminate.
  assert (Hh : windowHeight Samples.canvas <= height Samples.canvas)
    by discriminate.
  destruct (centerCanvas_centres Samples.canvas) as (Hx & _ & _ & Hy & _).
  split; [exact Hw |]. split; [exact Hh |].
  split; [rewrite (Hx Hw); reflexivity | exact (Hy Hh)].
Defined.

(** ** More on the pointer mapping *)

Lemma map_linear (n a b c d : Q) :
  P5.map n a b c d == c + (n - a) * ((d - c) / (b - a)).
Proof.
  unfold P5.map, Qdiv. ring.
Qed.

Lemma map_monotone (n n' a b c d : Q) :
  0 < b - a -> c <= d -> n <= n' -> P5.map n a b c d <= P5.map n' a b c d.
Proof.
  intros Hab Hcd Hn. rewrite !map_linear.
  assert (Hk : 0 <= (d - c) / (b - a)).
  { apply Qle_shift_div_l; [exact Hab | lra]. }
  set (k := (d - c) / (b - a)) in *.
  assert (0 <= (n' - n) * k) by (apply Qmult_le_0_compat; lra).
  lra.
Qed.

Lemma map_start (a b c d : Q) : P5.map a a b c d == c.
Proof. rewrite map_linear. ring. Qed.

Lemma map_stop (a b c d : Q) : ~ b - a == 0 -> P5.map b a b c d == d.
Proof. intro H. unfold P5.map. field. exact H. Qed.

Lemma map_compat (n n' a b c d : Q) :
  n == n' -> P5.map n a b c d == P5.map n' a b c d.
Proof. intro H. unfold P5.map. rewrite H. reflexivity. Qed.

Lemma constrain_monotone (n n' lo hi : Q) :
  n <= n' -> P5.constrain n lo hi <= P5.constrain n' lo hi.
Proof.
  intro H. unfold P5.constrain.
  apply Q.max_le_compat_r, Q.min_le_compat_r, H.
Qed.

Lemma constrain_low (n lo hi : Q) :
  n <= lo -> lo <= hi -> P5.constrain n lo hi == lo.
Proof.
  intros H1 H2. unfold P5.constrain. apply Q.max_r.
  apply Qle_trans with n; [apply Q.le_min_l | exact H1].
Qed.

Lemma constrain_high (n lo hi : Q) :
  hi <= n -> lo <= hi -> P5.constrain n lo hi == hi.
Proof.
  intros H1 H2. unfold P5.constrain.
  rewrite Q.max_l; [apply Q.min_r; exact H1 |].
  apply Q.min_glb; [apply Qle_trans with hi; assumption | exact H2].
Qed.

Lemma map_above_start (n a b c d : Q) :
  0 < b - a -> c <= d -> a <= n -> c <= P5.map n a b c d.
Proof.
  intros Hab Hcd Hn.
  apply Qle_trans with (P5.map a a b c d).
  - rewrite map_start. apply Qle_refl.
  - apply map_monotone; assumption.
Qed.

Lemma map_below_stop (n a b c d : Q) :
  0 < b - a -> c <= d -> n <= b -> P5.map n a b c d <= d.
Proof.
  intros Hab Hcd Hn.
  apply Qle_trans with (P5.map b a b c d).
  - apply map_monotone; assumption.
  - rewrite map_stop by lra. apply Qle_refl.
Qed.

Lemma map_below_start (n a b c d : Q) :
  0 < b - a -> c <= d -> n <= a -> P5.map n a b c d <= c.
Proof.
  intros Hab Hcd Hn.
  apply Qle_trans with (P5.map a a b c d).
  - apply map_monotone; assumption.
  - rewrite map_start. apply Qle_refl.
Qed.

Lemma map_above_stop (n a b c d : Q) :
  0 < b - a -> c <= d -> b <= n -> d <= P5.map n a b c d.
Proof.
  intros Hab Hcd Hn.
  apply Qle_trans with (P5.map b a b c d).
  - rewrite map_stop by lra. apply Qle_refl.
  - apply map_monotone; assumption.
Qed.

Lemma constrain_map_commute (n w c d : Q) :
  0 < w -> c <= d ->
  P5.constrain (P5.map n 0 w c d) c d
  == P5.map (P5.constrain n 0 w) 0 w c d.
Proof.
  intros Hw Hcd.
  assert (Hw0 : 0 < w - 0) by lra.
  assert (Hne : ~ w - 0 == 0) by lra.
  assert (Hle : 0 <= w) by lra.
  destruct (Qlt_le_dec 0 n) as [Hpos | Hneg].
  - destruct (Qlt_le_dec n w) as [Hin | Hout].
    + apply Qeq_trans with (P5.map n 0 w c d).
      * apply constrain_inside;
          [apply map_above_start | apply map_below_stop]; lra.
      * apply map_compat, Qeq_sym, constrain_inside; lra.
    + apply Qeq_trans with d.
      * apply constrain_high; [apply map_above_stop; lra | exact Hcd].
      * apply Qeq_trans with (P5.map w 0 w c d).
        -- apply Qeq_sym, map_stop, Hne.
        -- apply map_compat, Qeq_sym, constrain_high; assumption.
  - apply Qeq_trans with c.
    + apply constrain_low; [apply map_below_start; lra | exact Hcd].
    + apply Qeq_trans with (P5.map 0 0 w c d).
      * apply Qeq_sym, map_start.
      * apply map_compat, Qeq_sym, constrain_low; assumption.
Qed.

(** X3.  [mouseMoved] is monotone: on a canvas of positive size, moving
    the pointer to the right never lowers [noiseStrength], and moving it
    down never lowers [timeScale]. *)
Theorem mouseMoved_monotone :
  forall (x1 y1 x2 y2 : Q) (st : State),
    0 < width st ->
    0 < height st ->
    x1 <= x2 ->
    y1 <= y2 ->
    noiseStrength (mouseMoved x1 y1 st) <= noiseStrength (mouseMoved x2 y2 st)
    /\ timeScale (mouseMoved x1 y1 st) <= timeScale (mouseMoved x2 y2 st).
Proof.
  intros x1 y1 x2 y2 st Hw Hh Hx Hy.
  rewrite !mouseMoved_noiseStrength, !mouseMoved_timeScale.
  split; apply constrain_monotone, map_monotone;
    solve [lra | discriminate | assumption].
Qed.

Lemma mouseMoved_monotone_witness :
  0 < width Samples.canvas /\ 0 < height Samples.canvas
  /\ noiseStrength (mouseMoved 100 700 Samples.canvas)
     <= noiseStrength (mouseMoved 300 900 Samples.canvas)
  /\ timeScale (mouseMoved 100 700 Samples.canvas)
     <= timeScale (mouseMoved 300 900 Samples.canvas).
Proof.
  assert (Hw : 0 < width Samples.canvas) by reflexivity.
  assert (Hh : 0 < height Samples.canvas) by reflexivity.
  assert (Hx : (100 : Q) <= 300) by discriminate.
  assert (Hy : (700 : Q) <= 900) by discriminate.
  destruct (mouseMoved_monotone 100 700 300 900 Samples.canvas Hw Hh Hx Hy)
    as [H1 H2].
  repeat split; assumption.
Defined.

(** X4.  A pointer outside the canvas acts as the nearest point of the
    canvas: on a canvas of positive size [mouseMoved] gives the values it
    would give for the pointer clamped to [[0, width] x [0, height]],
    where the interpolation needs no further clamping. *)
Theorem mouseMoved_pointer_clamped_to_canvas :
  forall (mouseX mouseY : Q) (st : State),
    0 < width st ->
    0 < height st ->
    noiseStrength (mouseMoved mouseX mouseY st)
      == P5.map (P5.constrain mouseX 0 (width st)) 0 (width st) 0.5 2.0
    /\ timeScale (mouseMoved mouseX mouseY st)
      == P5.map (P5.constrain mouseY 0 (height st)) 0 (height st) 0.3 2.0.
Proof.
  intros mx my st Hw Hh.
  rewrite mouseMoved_noiseStrength, mouseMoved_timeScale.
  split; apply constrain_map_commute; solve [assumption | discriminate].
Qed.

Lemma mouseMoved_pointer_clamped_to_canvas_witness :
  0 < width Samples.canvas /\ 0 < height Samples.canvas
  /\ noiseStrength (mouseMoved 1000 (-20) Samples.canvas)
     == P5.map (P5.constrain 1000 0 800) 0 800 0.5 2.0
  /\ timeScale (mouseMoved 1000 (-20) Samples.canvas)
     == P5.map (P5.constrain (-20) 0 800) 0 800 0.3 2.0.
Proof.
  assert (Hw : 0 < width Samples.canvas) by reflexivity.
  assert (Hh : 0 < height Samples.canvas) by reflexivity.
  destruct (mouseMoved_pointer_clamped_to_canvas 1000 (-20) Samples.canvas
              Hw Hh) as [H1 H2].
  repeat split; assumption.
Defined.

(** ** What every session keeps *)

Section Sessions.

Variable noise : Q -> Q -> Q.
Variable cfg : NoiseConfig.

Lemma draw_noiseStrength (st : State) :
  noiseStrength (draw noise cfg st) = noiseStrength st.
Proof.
  unfold draw.
  match goal with
  | |- noiseStrength (drawAllCircles _ _ ?a ?s) = _ =>
      destruct (drawAllCircles_globals noise cfg a s) as (_ & H & _)
  end.
  exact H.
Qed.

Lemma step_parameters (e : Event) (st : State) :
  0.5 <= noiseStrength st <= 2.0 /\ 0.3 <= timeScale st <= 2.0 ->
  0.5 <= noiseStrength (step noise cfg st e) <= 2.0
  /\ 0.3 <= timeScale (step noise cfg st e) <= 2.0.
Proof.
  intros [Hn Ht]. destruct e as [| [mx my | w h]]; cbn [step handle].
  - rewrite draw_noiseStrength, draw_timeScale. split; assumption.
  - rewrite mouseMoved_noiseStrength, mouseMoved_timeScale.
    split; apply constrain_range; discriminate.
  - split; assumption.
Qed.

Lemma step_canvas (e : Event) (st : State) :
  width (step noise cfg st e) = width st
  /\ height (step noise cfg st e) = height st.
Proof.
  destruct e as [| i]; cbn [step];
    [apply draw_canvas | apply handle_canvas].
Qed.

Lemma run_parameters (es : list Event) (st : State) :
  0.5 <= noiseStrength st <= 2.0 /\ 0.3 <= timeScale st <= 2.0 ->
  0.5 <= noiseStrength (run noise cfg es st) <= 2.0
  /\ 0.3 <= timeScale (run noise cfg es st) <= 2.0.
Proof.
  revert st. induction es as [| e es IH]; intros st H; [exact H |].
  unfold run in *. cbn [fold_left]. apply IH, step_parameters, H.
Qed.

Lemma run_canvas (es : list Event) (st : State) :
  width (run noise cfg es st) = width st
  /\ height (run noise cfg es st) = height st.
Proof.
  revert st. induction es as [| e es IH]; intro st; [split; reflexivity |].
  unfold run in *. cbn [fold_left].
  destruct (IH (step noise cfg st e)) as [Hw Hh].
  destruct (step_canvas e st) as [Hw' Hh'].
  rewrite Hw, Hh, Hw', Hh'. split; reflexivity.
Qed.

End Sessions.

(** X5.  In every session, whatever events the host delivers, the two
    pointer-driven globals stay in their ranges, [noiseStrength] in
    [[0.5, 2.0]] and [timeScale] in [[0.3, 2.0]], and the canvas stays
    800 by 800: resizing the window never resizes it. *)
Theorem session_parameters_in_range :
  forall (noise : Q -> Q -> Q) (cfg : NoiseConfig) (h : Host)
         (es : list Event),
    exists st : State,
      session noise cfg h es = Returned st
      /\ 0.5 <= noiseStrength st <= 2.0
      /\ 0.3 <= timeScale st <= 2.0
      /\ width st = 800 /\ height st = 800.
Proof.
  intros noise cfg h es. eexists. split; [apply session_returns |].
  set (st0 := centerCanvas (createCanvas 800 800 (loaded h))).
  assert (H0 : 0.5 <= noiseStrength st0 <= 2.0 /\ 0.3 <= timeScale st0 <= 2.0)
    by (repeat split; discriminate).
  destruct (run_parameters noise cfg es st0 H0) as [Hn Ht].
  destruct (run_canvas noise cfg es st0) as [Hw Hh].
  split; [exact Hn |]. split; [exact Ht |].
  rewrite Hw, Hh. split; reflexivity.
Qed.

(** X7.  With [NOISE.animate] off the clock is frozen: no sequence of
    frames and inputs changes [t]. *)
Theorem animation_off_freezes_clock :
  forall (noise : Q -> Q -> Q) (cfg : NoiseConfig) (es : list Event)
         (st : State),
    animate cfg = false ->
    t (run noise cfg es st) = t st.
Proof.
  intros noise cfg es st Hoff. revert st.
  induction es as [| e es IH]; intro st; [reflexivity |].
  change (run noise cfg (e :: es) st)
    with (run noise cfg es (step noise cfg st e)).
  rewrite IH. destruct e as [| i]; cbn [step].
  - rewrite draw_clock, Hoff. reflexivity.
  - apply handle_clock.
Qed.

Lemma animation_off_freezes_clock_witness :
  animate Inputs.frozen = false
  /\ t (run Samples.flatNoise Inputs.frozen
          [Frame; Input (MouseMoved 10 700); Frame] Samples.still)
     = t Samples.still.
Proof.
  split; [reflexivity |].
  apply (animation_off_freezes_clock Samples.flatNoise Inputs.frozen).
  reflexivity.
Defined.

(** ** Frames and the transform stack *)

Section Registry.

Variable noise : Q -> Q -> Q.
Variable cfg : NoiseConfig.

Lemma displayAll_gfx (s tt : Q) (cs : list CircleArt.t) (w : World) :
  (forall c w', In c cs -> gfx (display noise cfg s c tt w') = gfx w') ->
  gfx (displayAll noise cfg s tt cs w) = gfx w.
Proof.
  unfold displayAll. revert w.
  induction cs as [| c cs IH]; intros w Hall; [reflexivity |].
  cbn [fold_left]. rewrite IH.
  - apply Hall. left. reflexivity.
  - intros c' w' Hin. apply Hall. right. exact Hin.
Qed.

Lemma drawAllCircles_gfx (tt : Q) (st : State) :
  circles st = []
  \/ (exists rg, circles st = fst (instantiate (layout noise) rg)) ->
  gfx (world (drawAllCircles noise cfg tt st)) = gfx (world st).
Proof.
  intro Hreg. unfold drawAllCircles.
  destruct Hreg as [E | [rg E]].
  - rewrite E. cbn [List.length Nat.eqb].
    destruct (instantiate (layout noise) (rng (world st))) as [cs rg'] eqn:Ei.
    cbn [world]. rewrite displayAll_gfx; [reflexivity |].
    intros c w' Hin.
    apply (registry_display_restores noise cfg _ _ (rng (world st))).
    rewrite Ei. exact Hin.
  - destruct ((List.length (circles st) =? 0)%nat) eqn:El.
    + apply Nat.eqb_eq in El. apply length_zero_iff_nil in El.
      destruct (instantiate (layout noise) (rng (world st)))
        as [cs rg'] eqn:Ei.
      cbn [world]. rewrite displayAll_gfx; [reflexivity |].
      intros c w' Hin.
      apply (registry_display_restores noise cfg _ _ (rng (world st))).
      rewrite Ei. exact Hin.
    + cbn [world]. rewrite displayAll_gfx; [reflexivity |].
      intros c w' Hin.
      apply (registry_display_restores noise cfg _ _ rg).
      rewrite <- E. exact Hin.
Qed.

Lemma draw_gfx (st : State) :
  circles st = []
  \/ (exists rg, circles st = fst (instantiate (layout noise) rg)) ->
  gfx (world (draw noise cfg st)) = gfx (world st).
Proof.
  intro Hreg. unfold draw. rewrite drawAllCircles_gfx; [reflexivity |].
  exact Hreg.
Qed.

Lemma step_registry (e : Event) (st : State) :
  circles st = []
  \/ (exists rg, circles st = fst (instantiate (layout noise) rg)) ->
  (circles (step noise cfg st e) = []
   \/ (exists rg,
         circles (step noise cfg st e) = fst (instantiate (layout noise) rg)))
  /\ gfx (world (step noise cfg st e)) = gfx (world st).
Proof.
  intro Hreg. destruct e as [| i]; cbn [step].
  - split; [| apply draw_gfx; exact Hreg].
    destruct (circles st) as [| c cs] eqn:E.
    + right. eexists. apply draw_first. exact E.
    + rewrite draw_cached by (rewrite E; discriminate).
      rewrite E. destruct Hreg as [H | H]; [discriminate H | right; exact H].
  - rewrite handle_circles. split; [exact Hreg |].
    destruct i; reflexivity.
Qed.

Lemma run_registry (es : list Event) (st : State) :
  circles st = []
  \/ (exists rg, circles st = fst (instantiate (layout noise) rg)) ->
  (circles (run noise cfg es st) = []
   \/ (exists rg,
         circles (run noise cfg es st) = fst (instantiate (layout noise) rg)))
  /\ gfx (world (run noise cfg es st)) = gfx (world st).
Proof.
  revert st. induction es as [| e es IH]; intros st Hreg;
    [split; [exact Hreg | reflexivity] |].
  change (run noise cfg (e :: es) st)
    with (run noise cfg es (step noise cfg st e)).
  destruct (step_registry e st Hreg) as [Hreg' Hg].
  destruct (IH _ Hreg') as [Hreg'' Hg'].
  split; [exact Hreg'' | rewrite Hg', Hg; reflexivity].
Qed.

End Registry.

(** X8.  Frames leave the transform stack as they find it: in every
    session, after any events, the current transform is the identity and
    nothing is left saved, and drawing one more frame keeps it so.  Every
    [push()] of a frame, in [display] and in the routines, is matched by
    its [pop()]. *)
Theorem session_transform_balanced :
  forall (noise : Q -> Q -> Q) (cfg : NoiseConfig) (h : Host)
         (es : list Event),
    exists st : State,
      session noise cfg h es = Returned st
      /\ gfx (world st) = mkGfx [] []
      /\ gfx (world (draw noise cfg st)) = gfx (world st).
Proof.
  intros noise cfg h es. eexists. split; [apply session_returns |].
  set (st0 := centerCanvas (createCanvas 800 800 (loaded h))).
  assert (H0 : circles st0 = []
               \/ (exists rg, circles st0 = fst (instantiate (layout noise) rg)))
    by (left; reflexivity).
  destruct (run_registry noise cfg es st0 H0) as [Hreg Hg].
  split; [rewrite Hg; reflexivity |].
  apply draw_gfx. exact Hreg.
Qed.

(** ** Building the figures *)

Lemma new_placement (x0 y0 s0 : Q) (fn : DrawFn) (rg : Rng) :
  placement (fst (CircleArt.new x0 y0 s0 fn rg)) = (x0, y0, s0, fn).
Proof.
  unfold CircleArt.new.
  destruct (P5.random1 1000 rg) as [a1 r1].
  destruct (P5.random1 1000 r1) as [a2 r2].
  destruct (P5.random1 1000 r2) as [a3 r3].
  destruct (P5.random1 1000 r3) as [a4 r4].
  reflexivity.
Qed.

Lemma instantiate_placement (l : list (Q * Q * Q * DrawFn)) (rg : Rng) :
  List.map placement (fst (instantiate l rg)) = l.
Proof.
  revert rg. induction l as [| [[[x0 y0] s0] fn] l IH]; intro rg;
    [reflexivity |].
  cbn [instantiate].
  pose proof (new_placement x0 y0 s0 fn rg) as Hp.
  destruct (CircleArt.new x0 y0 s0 fn rg) as [c rg1]. cbn [fst] in Hp.
  specialize (IH rg1).
  destruct (instantiate l rg1) as [cs rg2]. cbn [fst List.map] in *.
  rewrite Hp, IH. reflexivity.
Qed.

(** X9.  The figures are built in the order of the array literal and keep
    the position, base scale and routine they were constructed with,
    whatever the random stream yields: once a session has drawn a frame,
    its figure list read back as constructor arguments is the layout, so
    the draw order is the layout order in every later frame. *)
Theorem registry_keeps_layout :
  forall (noise : Q -> Q -> Q) (cfg : NoiseConfig) (h : Host)
         (pre : list InputEvent) (es : list Event)
         (l : list (Q * Q * Q * DrawFn)) (rg : Rng),
    List.map placement (fst (instantiate l rg)) = l
    /\ exists st : State,
         session noise cfg h (List.map Input pre ++ Frame :: es) = Returned st
         /\ List.map placement (circles st) = layout noise.
Proof.
  intros noise cfg h pre es l rg.
  split; [apply instantiate_placement |].
  eexists. split; [apply session_returns |].
  set (st0 := centerCanvas (createCanvas 800 800 (loaded h))).
  assert (Hbefore : circles (run noise cfg (List.map Input pre) st0) = [])
    by (rewrite run_inputs_circles; reflexivity).
  rewrite run_app.
  change (run noise cfg (Frame :: es) ?s)
    with (run noise cfg es (draw noise cfg s)).
  pose proof (first_frame_populates noise cfg _ Hbefore) as Hlen.
  rewrite run_circles by (intro E; rewrite E in Hlen; discriminate Hlen).
  rewrite draw_first by exact Hbefore.
  apply instantiate_placement.
Qed.

(** ** Numbers drawn from the seeded stream *)

Lemma lcg_next_range (s : Z) : (0 <= lcg_next s < 4294967296)%Z.
Proof.
  unfold lcg_next. apply Z.mod_pos_bound. reflexivity.
Qed.

Lemma rand_range (r : Rng) :
  lcg_state r <> None -> 0 <= fst (P5.rand r) /\ fst (P5.rand r) < 1.
Proof.
  intro Hs. destruct (lcg_state r) as [s |] eqn:E; [| congruence].
  rewrite (rand_seeded r s E). cbn [fst].
  pose proof (lcg_next_range s) as [H0 H1].
  unfold Qle, Qlt. cbn [Qnum Qden]. split; lia.
Qed.

Lemma rand_keeps_seeded (r : Rng) :
  lcg_state r <> None -> lcg_state (snd (P5.rand r)) <> None.
Proof.
  intro Hs. destruct (lcg_state r) as [s |] eqn:E; [| congruence].
  rewrite (rand_seeded r s E). discriminate.
Qed.

Lemma random1_range (hi : Q) (r : Rng) :
  lcg_state r <> None -> 0 < hi ->
  0 <= fst (P5.random1 hi r) /\ fst (P5.random1 hi r) < hi.
Proof.
  intros Hs Hhi. unfold P5.random1.
  destruct (rand_range r Hs) as [H0 H1].
  destruct (P5.rand r) as [u r']. cbn [fst] in *.
  split; nra.
Qed.

Lemma random1_stream (hi : Q) (r : Rng) :
  snd (P5.random1 hi r) = snd (P5.rand r).
Proof. unfold P5.random1. destruct (P5.rand r). reflexivity. Qed.

Lemma random2_range (lo hi : Q) (r : Rng) :
  lcg_state r <> None -> lo <= hi ->
  lo <= fst (P5.random2 lo hi r) <= hi.
Proof.
  intros Hs Hle. unfold P5.random2.
  destruct (rand_range r Hs) as [H0 H1].
  destruct (P5.rand r) as [u r']. cbn [fst] in *.
  destruct (Qle_bool lo hi) eqn:E.
  - cbn [fst]. split; nra.
  - exfalso. apply Qle_bool_iff in Hle. congruence.
Qed.

Lemma random2_keeps_seeded (lo hi : Q) (r : Rng) :
  lcg_state r <> None -> lcg_state (snd (P5.random2 lo hi r)) <> None.
Proof.
  intro Hs. rewrite random2_stream. apply rand_keeps_seeded, Hs.
Qed.

(** X10.  Constructing a figure from a seeded stream draws exactly four
    numbers, and each of the four noise seeds lies in [[0, 1000)]. *)
Theorem constructor_seeds_in_range :
  forall (x0 y0 s0 : Q) (fn : DrawFn) (rg : Rng),
    lcg_state rg <> None ->
    let c := fst (CircleArt.new x0 y0 s0 fn rg) in
    snd (CircleArt.new x0 y0 s0 fn rg) = draws 4 rg
    /\ (0 <= CircleArt.nx c /\ CircleArt.nx c < 1000)
    /\ (0 <= CircleArt.ny c /\ CircleArt.ny c < 1000)
    /\ (0 <= CircleArt.ns c /\ CircleArt.ns c < 1000)
    /\ (0 <= CircleArt.nr c /\ CircleArt.nr c < 1000).
Proof.
  intros x0 y0 s0 fn rg Hs c. subst c. unfold CircleArt.new.
  assert (Hk : (0 : Q) < 1000) by reflexivity.
  pose proof (random1_range 1000 rg Hs Hk) as R1.
  pose proof (random1_stream 1000 rg) as S1.
  destruct (P5.random1 1000 rg) as [a1 r1]. cbn [fst snd] in R1, S1.
  assert (Hs1 : lcg_state r1 <> None)
    by (rewrite S1; apply rand_keeps_seeded, Hs).
  pose proof (random1_range 1000 r1 Hs1 Hk) as R2.
  pose proof (random1_stream 1000 r1) as S2.
  destruct (P5.random1 1000 r1) as [a2 r2]. cbn [fst snd] in R2, S2.
  assert (Hs2 : lcg_state r2 <> None)
    by (rewrite S2; apply rand_keeps_seeded, Hs1).
  pose proof (random1_range 1000 r2 Hs2 Hk) as R3.
  pose proof (random1_stream 1000 r2) as S3.
  destruct (P5.random1 1000 r2) as [a3 r3]. cbn [fst snd] in R3, S3.
  assert (Hs3 : lcg_state r3 <> None)
    by (rewrite S3; apply rand_keeps_seeded, Hs2).
  pose proof (random1_range 1000 r3 Hs3 Hk) as R4.
  pose proof (random1_stream 1000 r3) as S4.
  destruct (P5.random1 1000 r3) as [a4 r4]. cbn [fst snd] in R4, S4.
  cbn [fst snd CircleArt.nx CircleArt.ny CircleArt.ns CircleArt.nr].
  split; [| repeat split; tauto].
  subst r4 r3 r2 r1. reflexivity.
Qed.

Lemma constructor_seeds_in_range_witness :
  lcg_state Inputs.seeded <> None
  /\ 0 <= CircleArt.nx (fst (CircleArt.new 10 10 1.0 drawCircle1 Inputs.seeded))
  /\ CircleArt.nx (fst (CircleArt.new 10 10 1.0 drawCircle1 Inputs.seeded))
     < 1000.
Proof.
  assert (Hs : lcg_state Inputs.seeded <> None) by discriminate.
  destruct (constructor_seeds_in_range 10 10 1.0 drawCircle1 Inputs.seeded Hs)
    as (_ & [H0 H1] & _).
  repeat split; assumption.
Defined.

(** ** The background dots *)

Lemma scatterDot_inside (cell : Q) (q : DotConfig) (rg : Rng) :
  lcg_state rg <> None ->
  rMin q <= rMax q ->
  2 * rMax q + 20 <= cell ->
  dotInside cell q (fst (scatterDot cell (gx q * cell) (gy q * cell) q rg))
  /\ lcg_state (snd (scatterDot cell (gx q * cell) (gy q * cell) q rg))
     <> None.
Proof.
  intros Hs Hr Hcell. unfold scatterDot.
  pose proof (random2_range _ _ rg Hs Hr) as R1.
  pose proof (random2_keeps_seeded (rMin q) (rMax q) rg Hs) as S1.
  destruct (P5.random2 (rMin q) (rMax q) rg) as [r rg1].
  cbn [fst snd] in R1, S1. cbv zeta.
  assert (Hfit : 10 + r <= cell - 10 - r) by lra.
  pose proof (random2_range _ _ rg1 S1 Hfit) as R2.
  pose proof (random2_keeps_seeded (10 + r) (cell - 10 - r) rg1 S1) as S2.
  destruct (P5.random2 (10 + r) (cell - 10 - r) rg1) as [ux rg2].
  cbn [fst snd] in R2, S2.
  pose proof (random2_range _ _ rg2 S2 Hfit) as R3.
  pose proof (random2_keeps_seeded (10 + r) (cell - 10 - r) rg2 S2) as S3.
  destruct (P5.random2 (10 + r) (cell - 10 - r) rg2) as [uy rg3].
  cbn [fst snd] in R3, S3. cbn [fst snd dotInside].
  split; [| exact S3].
  split; [exact R1 |]. split; split; lra.
Qed.

Lemma scatterDots_inside (n : nat) (cell : Q) (q : DotConfig) (rg : Rng) :
  lcg_state rg <> None ->
  rMin q <= rMax q ->
  2 * rMax q + 20 <= cell ->
  Forall (dotInside cell q)
         (fst (scatterDots n cell (gx q * cell) (gy q * cell) q rg))
  /\ lcg_state (snd (scatterDots n cell (gx q * cell) (gy q * cell) q rg))
     <> None.
Proof.
  intros Hs Hr Hcell. revert rg Hs.
  induction n as [| n IH]; intros rg Hs; [split; [constructor | exact Hs] |].
  cbn [scatterDots].
  destruct (scatterDot_inside cell q rg Hs Hr Hcell) as [Hd Hs1].
  destruct (scatterDot cell (gx q * cell) (gy q * cell) q rg) as [d rg1].
  cbn [fst snd] in Hd, Hs1.
  destruct (IH rg1 Hs1) as [Hds Hs2].
  destruct (scatterDots n cell (gx q * cell) (gy q * cell) q rg1)
    as [ds rg2].
  cbn [fst snd] in *. split; [constructor; assumption | exact Hs2].
Qed.

Lemma scatterQuadrants_inside (qs : list DotConfig) (cell : Q) (rg : Rng) :
  lcg_state rg <> None ->
  (forall q, In q qs -> rMin q <= rMax q /\ 2 * rMax q + 20 <= cell) ->
  Forall (fun d => exists q, In q qs /\ dotInside cell q d)
         (fst (scatterQuadrants qs cell rg)).
Proof.
  revert rg. induction qs as [| q qs IH]; intros rg Hs Hqs; [constructor |].
  cbn [scatterQuadrants].
  destruct (Hqs q (or_introl eq_refl)) as [Hr Hcell].
  destruct (scatterDots_inside (count q) cell q rg Hs Hr Hcell) as [Hds Hs1].
  destruct (scatterDots (count q) cell (gx q * cell) (gy q * cell) q rg)
    as [ds rg1].
  cbn [fst snd] in Hds, Hs1.
  assert (Hrest : forall q', In q' qs ->
                    rMin q' <= rMax q' /\ 2 * rMax q' + 20 <= cell)
    by (intros q' Hin; apply Hqs; right; exact Hin).
  specialize (IH rg1 Hs1 Hrest).
  destruct (scatterQuadrants qs cell rg1) as [ds' rg2]. cbn [fst] in *.
  apply Forall_app. split.
  - eapply Forall_impl; [| exact Hds].
    intros d Hd. exists q. split; [left; reflexivity | exact Hd].
  - eapply Forall_impl; [| exact IH].
    intros d [q' [Hin Hd]]. exists q'. split; [right; exact Hin | exact Hd].
Qed.

(** X11.  On a canvas at least 220 wide every background dot keeps its
    margin: its size is within the bounds of its quadrant's
    configuration and its centre is at least [10 + r] away from every
    edge of that quadrant, whatever the random stream was before the
    frame. *)
Theorem backgroundDots_keep_margin :
  forall (width : Q) (rg : Rng),
    220 <= width ->
    Forall (fun d => exists q, In q dotConfig /\ dotInside (width / 2) q d)
           (fst (backgroundDots width rg)).
Proof.
  intros width rg Hw. unfold backgroundDots.
  apply scatterQuadrants_inside; [discriminate |].
  intros q Hin.
  assert (Hcell : 110 <= width / 2)
    by (apply Qle_shift_div_l; [reflexivity | lra]).
  cbn [dotConfig In] in Hin.
  repeat (destruct Hin as [Hin | Hin];
          [subst q; cbn [rMin rMax]; split; [discriminate | lra] |]).
  contradiction.
Qed.

Lemma backgroundDots_keep_margin_witness :
  220 <= 800
  /\ Forall (fun d => exists q, In q dotConfig /\ dotInside (800 / 2) q d)
            (fst (backgroundDots 800 (hostRng Samples.host))).
Proof.
  assert (Hw : (220 : Q) <= 800) by discriminate.
  split; [exact Hw |].
  exact (backgroundDots_keep_margin 800 (hostRng Samples.host) Hw).
Defined.

Lemma rand_same (r1 r2 : Rng) :
  sameStream r1 r2 ->
  fst (P5.rand r1) = fst (P5.rand r2)
  /\ sameStream (snd (P5.rand r1)) (snd (P5.rand r2)).
Proof.
  intros [E Hs]. destruct (lcg_state r1) as [s |] eqn:E1; [| congruence].
  symmetry in E.
  rewrite (rand_seeded r1 s E1), (rand_seeded r2 s E).
  split; [reflexivity |]. split; [reflexivity | discriminate].
Qed.

Lemma random2_same (lo hi : Q) (r1 r2 : Rng) :
  sameStream r1 r2 ->
  fst (P5.random2 lo hi r1) = fst (P5.random2 lo hi r2)
  /\ sameStream (snd (P5.random2 lo hi r1)) (snd (P5.random2 lo hi r2)).
Proof.
  intro H. destruct (rand_same r1 r2 H) as [Hv Hs]. unfold P5.random2.
  destruct (P5.rand r1) as [u1 r1'], (P5.rand r2) as [u2 r2'].
  cbn [fst snd] in Hv, Hs. subst u2.
  destruct (Qle_bool lo hi); split; solve [reflexivity | exact Hs].
Qed.

Lemma scatterDot_same (cell bx by_ : Q) (q : DotConfig) (r1 r2 : Rng) :
  sameStream r1 r2 ->
  fst (scatterDot cell bx by_ q r1) = fst (scatterDot cell bx by_ q r2)
  /\ sameStream (snd (scatterDot cell bx by_ q r1))
                (snd (scatterDot cell bx by_ q r2)).
Proof.
  intro H. unfold scatterDot.
  destruct (random2_same (rMin q) (rMax q) r1 r2 H) as [V1 S1].
  destruct (P5.random2 (rMin q) (rMax q) r1) as [r a1],
           (P5.random2 (rMin q) (rMax q) r2) as [r' b1].
  cbn [fst snd] in V1, S1. subst r'. cbv zeta.
  destruct (random2_same (10 + r) (cell - 10 - r) a1 b1 S1) as [V2 S2].
  destruct (P5.random2 (10 + r) (cell - 10 - r) a1) as [ux a2],
           (P5.random2 (10 + r) (cell - 10 - r) b1) as [ux' b2].
  cbn [fst snd] in V2, S2. subst ux'.
  destruct (random2_same (10 + r) (cell - 10 - r) a2 b2 S2) as [V3 S3].
  destruct (P5.random2 (10 + r) (cell - 10 - r) a2) as [uy a3],
           (P5.random2 (10 + r) (cell - 10 - r) b2) as [uy' b3].
  cbn [fst snd] in V3, S3. subst uy'.
  split; [reflexivity | exact S3].
Qed.

Lemma scatterDots_same (n : nat) (cell bx by_ : Q) (q : DotConfig)
    (r1 r2 : Rng) :
  sameStream r1 r2 ->
  fst (scatterDots n cell bx by_ q r1) = fst (scatterDots n cell bx by_ q r2)
  /\ sameStream (snd (scatterDots n cell bx by_ q r1))
                (snd (scatterDots n cell bx by_ q r2))
  /\ List.length (fst (scatterDots n cell bx by_ q r1)) = n.
Proof.
  revert r1 r2. induction n as [| n IH]; intros r1 r2 H;
    [split; [reflexivity | split; [exact H | reflexivity]] |].
  cbn [scatterDots].
  destruct (scatterDot_same cell bx by_ q r1 r2 H) as [V1 S1].
  destruct (scatterDot cell bx by_ q r1) as [d a1],
           (scatterDot cell bx by_ q r2) as [d' b1].
  cbn [fst snd] in V1, S1. subst d'.
  destruct (IH a1 b1 S1) as (V2 & S2 & L2).
  destruct (scatterDots n cell bx by_ q a1) as [ds a2],
           (scatterDots n cell bx by_ q b1) as [ds' b2].
  cbn [fst snd] in *. subst ds'.
  split; [reflexivity |]. split; [exact S2 |].
  cbn [List.length]. rewrite L2. reflexivity.
Qed.

Lemma scatterQuadrants_same (qs : list DotConfig) (cell : Q) (r1 r2 : Rng) :
  sameStream r1 r2 ->
  fst (scatterQuadrants qs cell r1) = fst (scatterQuadrants qs cell r2)
  /\ List.length (fst (scatterQuadrants qs cell r1))
     = list_sum (List.map count qs).
Proof.
  revert r1 r2. induction qs as [| q qs IH]; intros r1 r2 H;
    [split; reflexivity |].
  cbn [scatterQuadrants].
  destruct (scatterDots_same (count q) cell (gx q * cell) (gy q * cell) q
              r1 r2 H) as (V1 & S1 & L1).
  destruct (scatterDots (count q) cell (gx q * cell) (gy q * cell) q r1)
    as [ds a1],
           (scatterDots (count q) cell (gx q * cell) (gy q * cell) q r2)
    as [ds' b1].
  cbn [fst snd] in V1, S1, L1. subst ds'.
  destruct (IH a1 b1 S1) as [V2 L2].
  destruct (scatterQuadrants qs cell a1) as [es a2],
           (scatterQuadrants qs cell b1) as [es' b2].
  cbn [fst] in *. subst es'.
  split; [reflexivity |].
  rewrite length_app, L1, L2. reflexivity.
Qed.

(** X12.  The background is the same in every frame: for a given canvas
    width [drawBackgroundGrid] scatters the same eighty dots whatever
    state the random stream was left in, by the previous frame, by the
    figures or by the host. *)
Theorem backgroundDots_same_every_frame :
  forall (width : Q) (rg1 rg2 : Rng),
    fst (backgroundDots width rg1) = fst (backgroundDots width rg2)
    /\ List.length (fst (backgroundDots width rg1)) = 80%nat.
Proof.
  intros width rg1 rg2. unfold backgroundDots.
  apply scatterQuadrants_same. split; [reflexivity | discriminate].
Qed.

(** ** The sparks of the sixth routine *)

Lemma collect_same (A : Type) (idx : list nat)
    (body : nat -> Rng -> A * Rng) (r1 r2 : Rng) :
  (forall i a b, sameStream a b ->
     fst (body i a) = fst (body i b)
     /\ sameStream (snd (body i a)) (snd (body i b))) ->
  sameStream r1 r2 ->
  fst (collect idx body r1) = fst (collect idx body r2)
  /\ sameStream (snd (collect idx body r1)) (snd (collect idx body r2))
  /\ List.length (fst (collect idx body r1)) = List.length idx.
Proof.
  intro Hbody. revert r1 r2.
  induction idx as [| i idx IH]; intros r1 r2 H;
    [split; [reflexivity | split; [exact H | reflexivity]] |].
  cbn [collect].
  destruct (Hbody i r1 r2 H) as [V1 S1].
  destruct (body i r1) as [a a1], (body i r2) as [a' b1].
  cbn [fst snd] in V1, S1. subst a'.
  destruct (IH a1 b1 S1) as (V2 & S2 & L2).
  destruct (collect idx body a1) as [l a2], (collect idx body b1) as [l' b2].
  cbn [fst snd] in *. subst l'.
  split; [reflexivity |]. split; [exact S2 |].
  cbn [List.length]. rewrite L2. reflexivity.
Qed.

Lemma collect_stream (A : Type) (k : nat) (idx : list nat)
    (body : nat -> Rng -> A * Rng) (rg : Rng) :
  (forall i r, snd (body i r) = draws k r) ->
  snd (collect idx body rg) = draws (List.length idx * k) rg.
Proof.
  intro Hbody. revert rg. induction idx as [| i idx IH]; intro rg;
    [reflexivity |].
  cbn [collect List.length Nat.mul].
  pose proof (Hbody i rg) as H1.
  destruct (body i rg) as [a rg1]. cbn [snd] in H1.
  specialize (IH rg1).
  destruct (collect idx body rg1) as [l rg2]. cbn [snd] in *.
  rewrite draws_add, IH, H1. reflexivity.
Qed.

Lemma for_stream (k n : nat) (body : nat -> World -> World) (w : World) :
  (forall i w', rng (body i w') = draws k (rng w')) ->
  rng (for_ n body w) = draws (n * k) (rng w).
Proof.
  intro Hbody. unfold for_.
  rewrite <- (length_seq n 0) at 2. generalize (seq 0 n). intro l.
  revert w. induction l as [| i l IH]; intro w; [reflexivity |].
  cbn [fold_left List.length Nat.mul].
  rewrite IH, Hbody, draws_add. reflexivity.
Qed.

Lemma draws_one (r : Rng) : draws 1 r = snd (P5.rand r).
Proof. reflexivity. Qed.

Lemma sparks6_stream (rg : Rng) :
  snd (sparks6 rg) = draws 30 (P5.randomSeed 1234 rg).
Proof.
  unfold sparks6. cbv zeta.
  match goal with
  | |- snd (let (red, r) := collect ?idx ?body ?r0 in _) = _ =>
      pose proof (collect_stream _ 3 idx body r0) as H1
  end.
  match type of H1 with
  | _ -> snd ?c = _ => destruct c as [red rg1]
  end.
  cbn [snd] in H1.
  match goal with
  | |- snd (let (dark, r) := collect ?idx ?body ?r0 in _) = _ =>
      pose proof (collect_stream _ 2 idx body r0) as H2;
      destruct (collect idx body r0) as [dark rg2]
  end.
  cbn [snd] in *.
  rewrite H2, H1.
  - rewrite <- draws_add. reflexivity.
  - intros i r.
    pose proof (random2_stream (-36) 36 r) as E1.
    destruct (P5.random2 (-36) 36 r) as [a r1]. cbn [snd] in E1.
    pose proof (random2_stream (-0.05 * 260) (0.05 * 260) r1) as E2.
    destruct (P5.random2 (-0.05 * 260) (0.05 * 260) r1) as [b r2].
    cbn [snd] in E2.
    pose proof (random2_stream 0.05 0.1 r2) as E3.
    destruct (P5.random2 0.05 0.1 r2) as [c r3]. cbn [snd] in *.
    subst r3 r2 r1. reflexivity.
  - intros i r.
    pose proof (random2_stream (-36) 36 r) as E1.
    destruct (P5.random2 (-36) 36 r) as [a r1]. cbn [snd] in E1.
    pose proof (random2_stream 0.1 0.12 r1) as E2.
    destruct (P5.random2 0.1 0.12 r1) as [c r2]. cbn [snd] in *.
    subst r2 r1. reflexivity.
Qed.

Lemma drawCircle6_stream (s tt : Q) (w : World) :
  rng (drawCircle6 s tt w) = draws 30 (P5.randomSeed 1234 (rng w)).
Proof.
  unfold drawCircle6. cbv zeta.
  rewrite (for_stream 2); [rewrite (for_stream 3) |].
  - unfold on_rng at 1. cbn [rng]. rewrite <- draws_add. reflexivity.
  - intros i w'. unfold on_rng. cbn [rng].
    rewrite !random2_stream. reflexivity.
  - intros i w'. unfold on_rng. cbn [rng].
    rewrite !random2_stream. reflexivity.
Qed.

Lemma sparks6_same (rg1 rg2 : Rng) :
  fst (sparks6 rg1) = fst (sparks6 rg2)
  /\ List.length (fst (sparks6 rg1)) = 12%nat.
Proof.
  unfold sparks6. cbv zeta.
  assert (H0 : sameStream (P5.randomSeed 1234 rg1) (P5.randomSeed 1234 rg2))
    by (split; [reflexivity | discriminate]).
  match goal with
  | |- fst (let (red, r) := collect ?idx ?body ?a in _) = _ /\ _ =>
      destruct (collect_same _ idx body _ _
                  ltac:(intros i a0 b0 Hab;
                        destruct (random2_same (-36) 36 a0 b0 Hab) as [V1 S1];
                        destruct (P5.random2 (-36) 36 a0) as [x1 a1],
                                 (P5.random2 (-36) 36 b0) as [x1' b1];
                        cbn [fst snd] in V1, S1; subst x1';
                        destruct (random2_same (-0.05 * 260) (0.05 * 260)
                                    a1 b1 S1) as [V2 S2];
                        destruct (P5.random2 (-0.05 * 260) (0.05 * 260) a1)
                          as [x2 a2],
                                 (P5.random2 (-0.05 * 260) (0.05 * 260) b1)
                          as [x2' b2];
                        cbn [fst snd] in V2, S2; subst x2';
                        destruct (random2_same 0.05 0.1 a2 b2 S2) as [V3 S3];
                        destruct (P5.random2 0.05 0.1 a2) as [x3 a3],
                                 (P5.random2 0.05 0.1 b2) as [x3' b3];
                        cbn [fst snd] in V3, S3; subst x3';
                        split; [reflexivity | exact S3])
                  H0) as (Vr & Sr & Lr)
  end.
  destruct (collect _ _ (P5.randomSeed 1234 rg1)) as [red a1],
           (collect _ _ (P5.randomSeed 1234 rg2)) as [red' b1].
  cbn [fst snd] in Vr, Sr, Lr. subst red'.
  match goal with
  | |- fst (let (dark, r) := collect ?idx ?body a1 in _) = _ /\ _ =>
      destruct (collect_same _ idx body a1 b1
                  ltac:(intros i a0 b0 Hab;
                        destruct (random2_same (-36) 36 a0 b0 Hab) as [V1 S1];
                        destruct (P5.random2 (-36) 36 a0) as [x1 c1],
                                 (P5.random2 (-36) 36 b0) as [x1' d1];
                        cbn [fst snd] in V1, S1; subst x1';
                        destruct (random2_same 0.1 0.12 c1 d1 S1) as [V2 S2];
                        destruct (P5.random2 0.1 0.12 c1) as [x2 c2],
                                 (P5.random2 0.1 0.12 d1) as [x2' d2];
                        cbn [fst snd] in V2, S2; subst x2';
                        split; [reflexivity | exact S2])
                  Sr) as (Vd & Sd & Ld)
  end.
  destruct (collect _ _ a1) as [dark a2], (collect _ _ b1) as [dark' b2].
  cbn [fst snd] in *. subst dark'.
  split; [reflexivity |].
  rewrite length_app, Lr, Ld. reflexivity.
Qed.

(** X13.  The sparks of the sixth routine are the same on every call:
    their twelve angles, radii and diameters do not depend on the state
    of the random stream the routine is entered with, the routine leaves
    the stream thirty draws after [randomSeed(1234)], and every spark
    lies inside the orange-red centre disc of diameter [260 * 0.5]. *)
Theorem sparks_same_every_frame :
  forall (rg1 rg2 : Rng) (noiseStrength tt : Q) (w : World),
    fst (sparks6 rg1) = fst (sparks6 rg2)
    /\ List.length (fst (sparks6 rg1)) = 12%nat
    /\ rng (drawCircle6 noiseStrength tt w) = snd (sparks6 (rng w))
    /\ lcg_state (rng (drawCircle6 noiseStrength tt w))
       = Some (lcg_advance 30 1234)
    /\ Forall (fun '(angle, radius, d) =>
                 0 < d /\ 0 <= radius /\ radius + d / 2 <= 260 * 0.5 / 2)
              (fst (sparks6 rg1)).
Proof.
  intros rg1 rg2 s tt w.
  destruct (sparks6_same rg1 rg2) as [Hsame Hlen].
  split; [exact Hsame |]. split; [exact Hlen |].
  split; [rewrite drawCircle6_stream, sparks6_stream; reflexivity |].
  split.
  - rewrite drawCircle6_stream.
    apply (draws_seeded 30 _ 1234). reflexivity.
  - rewrite (proj1 (sparks6_same rg1 Inputs.seeded)).
    vm_compute.
    repeat (constructor; [repeat split; discriminate |]).
    constructor.
Qed.

(** ** How far a figure moves *)

(** X14.  With the noise sample in [[0, 1]], amplitudes that are not
    negative and [noiseStrength >= 0], [display] moves a figure by at most
    [wiggle * noiseStrength] on each axis and turns it by at most
    [rotMax * noiseStrength] degrees; the point it translates to stays in
    the square of that half-width around the base position. *)
Theorem display_offsets_bounded :
  forall (noise : Q -> Q -> Q) (cfg : NoiseConfig) (noiseStrength : Q)
         (c : CircleArt.t) (tt : Q),
    (forall x y, 0 <= noise x y <= 1) ->
    0 <= wiggle cfg ->
    0 <= rotMax cfg ->
    0 <= noiseStrength ->
    let o := offsets noise cfg noiseStrength c tt in
    Qabs (dx o) <= wiggle cfg * noiseStrength
    /\ Qabs (dy o) <= wiggle cfg * noiseStrength
    /\ Qabs (ang o) <= rotMax cfg * noiseStrength
    /\ CircleArt.x c - wiggle cfg * noiseStrength <= CircleArt.x c + dx o
         <= CircleArt.x c + wiggle cfg * noiseStrength
    /\ CircleArt.y c - wiggle cfg * noiseStrength <= CircleArt.y c + dy o
         <= CircleArt.y c + wiggle cfg * noiseStrength.
Proof.
  intros noise cfg s c tt Hn Hw Hr Hs o. subst o.
  unfold offsets. cbn [dx dy ang].
  fold (noiseWiggle noise s (CircleArt.nx c + tt) (wiggle cfg) 0).
  fold (noiseWiggle noise s (CircleArt.ny c + tt) (wiggle cfg) 0).
  fold (noiseWiggle noise s (CircleArt.nr c + tt) (rotMax cfg) 0).
  destruct (noiseWiggle_within noise Hn s (CircleArt.nx c + tt) (wiggle cfg) 0
              Hw Hs) as [X1 X2].
  destruct (noiseWiggle_within noise Hn s (CircleArt.ny c + tt) (wiggle cfg) 0
              Hw Hs) as [Y1 Y2].
  destruct (noiseWiggle_within noise Hn s (CircleArt.nr c + tt) (rotMax cfg) 0
              Hr Hs) as [R1 R2].
  repeat split;
    solve [ apply Qabs_Qle_condition; split; assumption | lra ].
Qed.

Lemma display_offsets_bounded_witness :
  Qabs (dx (offsets Samples.timeNoise NOISE 2 Samples.petals 7))
  <= wiggle NOISE * 2.
Proof.
  refine (proj1 (display_offsets_bounded Samples.timeNoise NOISE 2
                   Samples.petals 7 timeNoise_range _ _ _));
    discriminate.
Defined.

(** X15.  With the noise sample in [[0, 1]], positive scale bounds and a
    positive [noiseStrength], the breathing factor lies between [sMin]
    and [sMax * noiseStrength], in whichever order they come, and is
    positive; so a figure with a positive base scale is always drawn with
    a positive scale: breathing never collapses or mirrors it. *)
Theorem breathing_keeps_scale_positive :
  forall (noise : Q -> Q -> Q) (cfg : NoiseConfig) (noiseStrength : Q)
         (c : CircleArt.t) (tt : Q),
    (forall x y, 0 <= noise x y <= 1) ->
    0 < sMin cfg ->
    0 < sMax cfg ->
    0 < noiseStrength ->
    0 < CircleArt.scale c ->
    let o := offsets noise cfg noiseStrength c tt in
    Qmin (sMin cfg) (sMax cfg * noiseStrength) <= sFactor o
    /\ sFactor o <= Qmax (sMin cfg) (sMax cfg * noiseStrength)
    /\ 0 < sFactor o
    /\ 0 < sc o.
Proof.
  intros noise cfg s c tt Hn Hmin Hmax Hs Hc o. subst o.
  destruct (breathing_between noise cfg s c tt Hn) as [Hlo Hhi].
  assert (Hup : 0 < sMax cfg * s) by (apply Qmult_lt_0_compat; assumption).
  assert (Hpos : 0 < sFactor (offsets noise cfg s c tt)).
  { apply Qlt_le_trans with (Qmin (sMin cfg) (sMax cfg * s)); [| exact Hlo].
    apply Q.min_glb_lt; assumption. }
  split; [exact Hlo |]. split; [exact Hhi |]. split; [exact Hpos |].
  change (sc (offsets noise cfg s c tt))
    with (CircleArt.scale c * sFactor (offsets noise cfg s c tt)).
  apply Qmult_lt_0_compat; assumption.
Qed.

Lemma breathing_keeps_scale_positive_witness :
  0 < sc (offsets Samples.timeNoise NOISE 0.5 Samples.petals 7).
Proof.
  refine (proj2 (proj2 (proj2
    (breathing_keeps_scale_positive Samples.timeNoise NOISE 0.5
       Samples.petals 7 timeNoise_range _ _ _ _))));
    reflexivity.
Defined.


(** ** Sizes the routines paint with *)

Lemma Forall_map_seq (A : Type) (P : A -> Prop) (f : nat -> A) (n : nat) :
  (forall i, (i < n)%nat -> P (f i)) -> Forall P (List.map f (seq 0 n)).
Proof.
  intro H. apply Forall_forall. intros a Hin.
  apply in_map_iff in Hin. destruct Hin as [i [E Hi]]. subst a.
  apply H. apply in_seq in Hi. lia.
Qed.

Lemma half (q : Q) : q / 2 == q * 0.5.
Proof. unfold Qdiv. apply Qmult_comp; reflexivity. Qed.

Section Sizes.

Variable noise : Q -> Q -> Q.
Hypothesis noise_range : forall x y, 0 <= noise x y <= 1.

Variable s : Q.
Hypothesis strength_range : 0 <= s <= 2.

Lemma wiggle_at_most (seed amp tt : Q) :
  0 <= amp ->
  - (amp * 2) <= noiseWiggle noise s seed amp tt <= amp * 2.
Proof.
  intro Ha. destruct strength_range as [H0 H2].
  destruct (noiseWiggle_within noise noise_range s seed amp tt Ha H0)
    as [L U].
  assert (amp * s <= amp * 2) by nra.
  split; lra.
Qed.

Lemma spokes2_sizes (tt : Q) :
  Forall (fun p => exists cx len wd,
            snd p = Rect cx 0 len wd
            /\ cx == 61 /\ wd == 6
            /\ 2 <= len <= 82
            /\ 20 <= cx - len / 2 /\ cx + len / 2 <= 102)
         (spokes2 noise s tt).
Proof.
  unfold spokes2. cbv zeta. apply Forall_map_seq. intros i _.
  cbn [snd]. eexists. eexists. eexists.
  split; [reflexivity |].
  assert (Ha : (0 : Q) <= 20) by discriminate.
  destruct (wiggle_at_most (400 + ofNat i) 20 tt Ha) as [L U].
  set (v := noiseWiggle noise s (400 + ofNat i) 20 tt) in *.
  split; [reflexivity |]. split; [reflexivity |].
  rewrite !half. repeat split; lra.
Qed.

Lemma petals3_sizes (tt : Q) :
  Forall (fun p => exists h,
            snd p = Ellipse 0 (-90) 50 h
            /\ 60 <= h <= 180 /\ 0 <= 90 - h / 2)
         (petals3 noise s tt).
Proof.
  unfold petals3. cbv zeta. apply Forall_map_seq. intros i _.
  cbn [snd]. eexists. split; [reflexivity |].
  assert (Ha : (0 : Q) <= 30) by discriminate.
  destruct (wiggle_at_most (600 + ofNat i) 30 tt Ha) as [L U].
  rewrite !half. repeat split; lra.
Qed.

Lemma petals7_sizes (tt : Q) :
  Forall (fun p => exists h,
            snd p = Ellipse 0 (- 130) 18 h
            /\ 90 <= h <= 190 /\ 35 <= 130 - h / 2 /\ 130 + h / 2 <= 500 / 2)
         (petals7 noise s tt).
Proof.
  unfold petals7. cbv zeta. apply Forall_map_seq. intros i _.
  cbn [snd]. eexists. split; [reflexivity |].
  assert (Ha : (0 : Q) <= 25) by discriminate.
  destruct (wiggle_at_most (1200 + ofNat i) 25 tt Ha) as [L U].
  rewrite !half. repeat split; lra.
Qed.

Lemma ringDots1_radii (tt : Q) :
  Forall (fun '(angle, radius, d) => 65 <= radius <= 105 /\ d == 20)
         (ringDots1 noise s tt).
Proof.
  unfold ringDots1. cbv zeta. apply Forall_map_seq. intros i _.
  assert (Ha : (0 : Q) <= 100 * 0.10) by discriminate.
  destruct (wiggle_at_most (200 + ofNat i) (100 * 0.10) tt Ha) as [L U].
  repeat split; solve [lra | reflexivity].
Qed.

Lemma ringDots4_radii (tt : Q) :
  Forall (fun '(angle, radius, d) => 99 <= radius <= 191 /\ d == 26)
         (ringDots4 noise s tt).
Proof.
  unfold ringDots4. cbv zeta. apply Forall_map_seq. intros i _.
  assert (Ha : (0 : Q) <= 23) by discriminate.
  destruct (wiggle_at_most (700 + ofNat i) 23 tt Ha) as [L U].
  rewrite !half. repeat split; solve [lra | reflexivity].
Qed.

Lemma dots8_radii (tt : Q) :
  Forall (fun p => exists radius,
            snd p = Ellipse 0 (- radius) 50 50 /\ 160 <= radius <= 260)
         (dots8 noise s tt).
Proof.
  unfold dots8. cbv zeta. apply Forall_map_seq. intros i _.
  cbn [snd]. eexists. split; [reflexivity |].
  assert (Ha : (0 : Q) <= 25) by discriminate.
  destruct (wiggle_at_most (1300 + ofNat i) 25 tt Ha) as [L U].
  split; lra.
Qed.

End Sizes.

(** X17.  With the noise sample in [[0, 1]] and [noiseStrength] in
    [[0, 2]], every white spoke of the second routine is a centred
    rectangle of width 6 around radius 61 whose length stays between 2
    and 82: the length handed to [rect] is always positive, the inner end
    stays at least 20 from the centre and the outer end within 102. *)
Theorem spokes_keep_positive_length :
  forall (noise : Q -> Q -> Q) (noiseStrength tt : Q),
    (forall x y, 0 <= noise x y <= 1) ->
    0 <= noiseStrength <= 2 ->
    List.length (spokes2 noise noiseStrength tt) = 24%nat
    /\ Forall (fun p => exists cx len wd,
                 snd p = Rect cx 0 len wd
                 /\ cx == 61 /\ wd == 6
                 /\ 2 <= len <= 82
                 /\ 20 <= cx - len / 2 /\ cx + len / 2 <= 102)
              (spokes2 noise noiseStrength tt).
Proof.
  intros noise s tt Hn Hs. split; [reflexivity |].
  apply spokes2_sizes; assumption.
Qed.

Lemma spokes_keep_positive_length_witness :
  Forall (fun p => exists cx len wd,
            snd p = Rect cx 0 len wd
            /\ cx == 61 /\ wd == 6
            /\ 2 <= len <= 82
            /\ 20 <= cx - len / 2 /\ cx + len / 2 <= 102)
         (spokes2 Samples.timeNoise 2 3).
Proof.
  refine (proj2 (spokes_keep_positive_length Samples.timeNoise 2 3
                   timeNoise_range _)).
  split; discriminate.
Defined.

(** X18.  With the noise sample in [[0, 1]] and [noiseStrength] in
    [[0, 2]], the petals keep a positive length and do not cross the
    centre: the orange petals of the third routine are 50 wide and
    between 60 and 180 long around the point 90 out, the purple petals of
    the seventh are 18 wide and between 90 and 190 long around the point
    130 out, their inner end at least 35 from the centre and their outer
    end inside the black disc of diameter 500. *)
Theorem petals_keep_positive_length :
  forall (noise : Q -> Q -> Q) (noiseStrength tt : Q),
    (forall x y, 0 <= noise x y <= 1) ->
    0 <= noiseStrength <= 2 ->
    Forall (fun p => exists h,
              snd p = Ellipse 0 (-90) 50 h
              /\ 60 <= h <= 180 /\ 0 <= 90 - h / 2)
           (petals3 noise noiseStrength tt)
    /\ Forall (fun p => exists h,
                 snd p = Ellipse 0 (- 130) 18 h
                 /\ 90 <= h <= 190
                 /\ 35 <= 130 - h / 2 /\ 130 + h / 2 <= 500 / 2)
              (petals7 noise noiseStrength tt).
Proof.
  intros noise s tt Hn Hs. split.
  - apply petals3_sizes; assumption.
  - apply petals7_sizes; assumption.
Qed.

Lemma petals_keep_positive_length_witness :
  Forall (fun p => exists h,
            snd p = Ellipse 0 (-90) 50 h
            /\ 60 <= h <= 180 /\ 0 <= 90 - h / 2)
         (petals3 Samples.timeNoise 2 3).
Proof.
  refine (proj1 (petals_keep_positive_length Samples.timeNoise 2 3
                   timeNoise_range _)).
  split; discriminate.
Defined.

(** X19.  With the noise sample in [[0, 1]] and [noiseStrength] in
    [[0, 2]], the rings of dots stay rings: the purple dots of the first
    routine sit at a radius between 65 and 105, the yellow dots of the
    fourth between 99 and 191, the green dots of the eighth between 160
    and 260, each with its fixed diameter (20, 26 and 50); no radius ever
    reaches 0. *)
Theorem ring_dots_keep_positive_radius :
  forall (noise : Q -> Q -> Q) (noiseStrength tt : Q),
    (forall x y, 0 <= noise x y <= 1) ->
    0 <= noiseStrength <= 2 ->
    Forall (fun '(angle, radius, d) => 65 <= radius <= 105 /\ d == 20)
           (ringDots1 noise noiseStrength tt)
    /\ Forall (fun '(angle, radius, d) => 99 <= radius <= 191 /\ d == 26)
              (ringDots4 noise noiseStrength tt)
    /\ Forall (fun p => exists radius,
                 snd p = Ellipse 0 (- radius) 50 50 /\ 160 <= radius <= 260)
              (dots8 noise noiseStrength tt).
Proof.
  intros noise s tt Hn Hs. split; [| split].
  - apply ringDots1_radii; assumption.
  - apply ringDots4_radii; assumption.
  - apply dots8_radii; assumption.
Qed.

Lemma ring_dots_keep_positive_radius_witness :
  Forall (fun '(angle, radius, d) => 65 <= radius <= 105 /\ d == 20)
         (ringDots1 Samples.timeNoise 2 3).
Proof.
  refine (proj1 (ring_dots_keep_positive_radius Samples.timeNoise 2 3
                   timeNoise_range _)).
  split; discriminate.
Defined.

(** ** The registry is built once *)

Lemma world_eta (w : World) : mkWorld (gfx w) (rng w) = w.
Proof. destruct w. reflexivity. Qed.

Lemma new_draws (x0 y0 s0 : Q) (fn : DrawFn) (rg : Rng) :
  let c := fst (CircleArt.new x0 y0 s0 fn rg) in
  CircleArt.nx c = fst (P5.random1 1000 (draws 0 rg))
  /\ CircleArt.ny c = fst (P5.random1 1000 (draws 1 rg))
  /\ CircleArt.ns c = fst (P5.random1 1000 (draws 2 rg))
  /\ CircleArt.nr c = fst (P5.random1 1000 (draws 3 rg))
  /\ snd (CircleArt.new x0 y0 s0 fn rg) = draws 4 rg.
Proof.
  intro c. subst c. unfold CircleArt.new.
  change (draws 0 rg) with rg.
  pose proof (random1_stream 1000 rg) as S1.
  destruct (P5.random1 1000 rg) as [a1 r1] eqn:E1. cbn [snd] in S1.
  assert (D1 : draws 1 rg = r1) by (rewrite S1; reflexivity).
  pose proof (random1_stream 1000 r1) as S2.
  destruct (P5.random1 1000 r1) as [a2 r2] eqn:E2. cbn [snd] in S2.
  assert (D2 : draws 2 rg = r2)
    by (rewrite S2, <- D1; symmetry; apply (draws_add 1 1)).
  pose proof (random1_stream 1000 r2) as S3.
  destruct (P5.random1 1000 r2) as [a3 r3] eqn:E3. cbn [snd] in S3.
  assert (D3 : draws 3 rg = r3)
    by (rewrite S3, <- D2; symmetry; apply (draws_add 2 1)).
  pose proof (random1_stream 1000 r3) as S4.
  destruct (P5.random1 1000 r3) as [a4 r4] eqn:E4. cbn [snd] in S4.
  assert (D4 : draws 4 rg = r4)
    by (rewrite S4, <- D3; symmetry; apply (draws_add 3 1)).
  cbn [fst snd CircleArt.nx CircleArt.ny CircleArt.ns CircleArt.nr].
  rewrite D1, D2, D3, E2, E3, E4. cbn [fst].
  repeat split. symmetry. exact D4.
Qed.

Lemma instantiate_draws (l : list (Q * Q * Q * DrawFn)) (rg : Rng) :
  snd (instantiate l rg) = draws (4 * List.length l) rg.
Proof.
  revert rg. induction l as [| [[[x0 y0] s0] fn] l IH]; intro rg;
    [reflexivity |].
  cbn [instantiate List.length].
  destruct (new_draws x0 y0 s0 fn rg) as (_ & _ & _ & _ & Hs).
  destruct (CircleArt.new x0 y0 s0 fn rg) as [c rg1]. cbn [snd] in Hs.
  specialize (IH rg1).
  destruct (instantiate l rg1) as [cs rg2]. cbn [snd] in *.
  rewrite IH, Hs.
  replace (4 * S (List.length l))%nat with (4 + 4 * List.length l)%nat
    by lia.
  symmetry. apply draws_add.
Qed.

Lemma instantiate_seeds_drawn (l : list (Q * Q * Q * DrawFn)) (rg : Rng)
    (i : nat) (c : CircleArt.t) :
  nth_error (fst (instantiate l rg)) i = Some c ->
  CircleArt.nx c = fst (P5.random1 1000 (draws (4 * i) rg))
  /\ CircleArt.ny c = fst (P5.random1 1000 (draws (4 * i + 1) rg))
  /\ CircleArt.ns c = fst (P5.random1 1000 (draws (4 * i + 2) rg))
  /\ CircleArt.nr c = fst (P5.random1 1000 (draws (4 * i + 3) rg)).
Proof.
  revert rg i. induction l as [| [[[x0 y0] s0] fn] l IH]; intros rg i Hnth.
  - destruct i; discriminate Hnth.
  - cbn [instantiate] in Hnth.
    destruct (new_draws x0 y0 s0 fn rg) as (Hx & Hy & Hs & Hr & Hrg).
    destruct (CircleArt.new x0 y0 s0 fn rg) as [c1 rg1].
    cbn [fst snd] in Hx, Hy, Hs, Hr, Hrg.
    specialize (IH rg1).
    destruct (instantiate l rg1) as [cs rg2]. cbn [fst] in *.
    destruct i as [| i].
    + cbn [nth_error] in Hnth. injection Hnth as Hc. subst c.
      repeat split; assumption.
    + cbn [nth_error] in Hnth. specialize (IH i Hnth). subst rg1.
      rewrite <- !draws_add in IH.
      replace (4 * S i)%nat with (4 + 4 * i)%nat by lia.
      replace (4 + 4 * i + 1)%nat with (4 + (4 * i + 1))%nat by lia.
      replace (4 + 4 * i + 2)%nat with (4 + (4 * i + 2))%nat by lia.
      replace (4 + 4 * i + 3)%nat with (4 + (4 * i + 3))%nat by lia.
      exact IH.
Qed.

Lemma draw_populated (noise : Q -> Q -> Q) (cfg : NoiseConfig) (st : State) :
  circles st <> [] ->
  circles (draw noise cfg st) = circles st
  /\ world (draw noise cfg st)
     = displayAll noise cfg (noiseStrength st) (t (draw noise cfg st))
         (circles st) (drawBackgroundGrid (width st) (world st)).
Proof.
  intro Hne. split; [apply draw_cached; exact Hne |].
  rewrite draw_clock. unfold draw, drawAllCircles.
  destruct (circles st) as [| c cs] eqn:E; [congruence |].
  cbn [circles List.length Nat.eqb world t noiseStrength].
  rewrite world_eta. reflexivity.
Qed.

(** C5.  The figure list is built exactly once.  In every session it is
    empty until the first frame; that frame, after drawing the
    background, constructs the twelve figures, each constructor drawing
    its four seeds as the next four [random(1000)] numbers of the stream,
    forty-eight draws in all; whatever events follow, frames included,
    the list afterwards is the very list the first frame built.  A frame
    that finds a list that is not empty, whatever figures and seeds it
    holds, constructs nothing and draws no seed: it keeps the list and
    displays those figures on the stream the background left. *)
Theorem registry_instantiated_once :
  forall (noise : Q -> Q -> Q) (cfg : NoiseConfig) (h : Host)
         (pre : list InputEvent) (es : list Event) (st : State)
         (l : list (Q * Q * Q * DrawFn)) (rg : Rng),
    circles st <> [] ->
    (exists before first final : State,
       session noise cfg h (List.map Input pre) = Returned before
       /\ session noise cfg h (List.map Input pre ++ [Frame]) = Returned first
       /\ session noise cfg h (List.map Input pre ++ Frame :: es)
          = Returned final
       /\ circles before = []
       /\ circles first
          = fst (instantiate (layout noise)
                   (snd (backgroundDots (width before) (rng (world before)))))
       /\ List.length (circles first) = 12%nat
       /\ circles final = circles first
       /\ List.map CircleArt.seeds (circles final)
          = List.map CircleArt.seeds (circles first))
    /\ circles (draw noise cfg st) = circles st
    /\ world (draw noise cfg st)
       = displayAll noise cfg (noiseStrength st) (t (draw noise cfg st))
           (circles st) (drawBackgroundGrid (width st) (world st))
    /\ circles (run noise cfg es st) = circles st
    /\ List.length (fst (instantiate l rg)) = List.length l
    /\ snd (instantiate l rg) = draws (4 * List.length l) rg
    /\ (forall i c,
          nth_error (fst (instantiate l rg)) i = Some c ->
          CircleArt.nx c = fst (P5.random1 1000 (draws (4 * i) rg))
          /\ CircleArt.ny c = fst (P5.random1 1000 (draws (4 * i + 1) rg))
          /\ CircleArt.ns c = fst (P5.random1 1000 (draws (4 * i + 2) rg))
          /\ CircleArt.nr c = fst (P5.random1 1000 (draws (4 * i + 3) rg))).
Proof.
  intros noise cfg h pre es st l rg Hne.
  split.
  { set (st0 := centerCanvas (createCanvas 800 800 (loaded h))).
    exists (run noise cfg (List.map Input pre) st0),
           (run noise cfg (List.map Input pre ++ [Frame]) st0),
           (run noise cfg (List.map Input pre ++ Frame :: es) st0).
    rewrite !session_returns. fold st0.
    assert (Hbefore : circles (run noise cfg (List.map Input pre) st0) = [])
      by (rewrite run_inputs_circles; reflexivity).
    assert (Hbuilt :
      circles (run noise cfg (List.map Input pre ++ [Frame]) st0)
      = fst (instantiate (layout noise)
               (snd (backgroundDots
                       (width (run noise cfg (List.map Input pre) st0))
                       (rng (world (run noise cfg (List.map Input pre)
                                      st0))))))).
    { rewrite run_app.
      change (run noise cfg [Frame] ?s) with (draw noise cfg s).
      apply draw_first. exact Hbefore. }
    assert (Hfirst :
      List.length
        (circles (run noise cfg (List.map Input pre ++ [Frame]) st0))
      = 12%nat)
      by (rewrite Hbuilt; apply instantiate_length).
    assert (Hfinal :
      circles (run noise cfg (List.map Input pre ++ Frame :: es) st0)
      = circles (run noise cfg (List.map Input pre ++ [Frame]) st0)).
    { change (Frame :: es) with ([Frame] ++ es).
      rewrite app_assoc, (run_app noise cfg (_ ++ [Frame]) es).
      apply run_circles. intro E. rewrite E in Hfirst. discriminate Hfirst. }
    repeat split; try assumption.
    rewrite Hfinal. reflexivity. }
  destruct (draw_populated noise cfg st Hne) as [Hkeep Hworld].
  split; [exact Hkeep |]. split; [exact Hworld |].
  split; [apply run_circles; exact Hne |].
  split; [apply instantiate_length |].
  split; [apply instantiate_draws |].
  intros i c Hnth. apply (instantiate_seeds_drawn l rg i c Hnth).
Qed.

Lemma registry_instantiated_once_witness :
  circles (mkState 5 1 1 [Samples.petals] 800 800 1280 720 (0, 0)
             Samples.blank) <> []
  /\ circles (draw Samples.flatNoise NOISE
                (mkState 5 1 1 [Samples.petals] 800 800 1280 720 (0, 0)
                   Samples.blank))
     = [Samples.petals]
  /\ circles (run Samples.flatNoise NOISE [Frame; Frame]
                (mkState 5 1 1 [Samples.petals] 800 800 1280 720 (0, 0)
                   Samples.blank))
     = [Samples.petals].
Proof.
  assert (Hne : circles (mkState 5 1 1 [Samples.petals] 800 800 1280 720
                           (0, 0) Samples.blank) <> [])
    by discriminate.
  destruct (registry_instantiated_once Samples.flatNoise NOISE Samples.host
              [] [Frame; Frame] _ (layout Samples.flatNoise)
              (hostRng Samples.host) Hne)
    as (_ & Hkeep & _ & Hrun & _).
  split; [exact Hne |]. split; [exact Hkeep | exact Hrun].
Defined.
